(** * The query-resolution pipeline of Tomahawk (src/libtomahawk/pipeline.cpp)

    A shallow embedding of [Tomahawk::Pipeline]: the member variables of the
    class become one record, every member function becomes a computation in
    a small state-and-output monad (the state is the pipeline together with
    the query objects behind the shared pointers and the armed [FuncTimeout]
    objects; the output is the list of signals emitted, resolver calls made
    and debug lines written).  The theorems at the end relate the statements
    of the specification to these definitions.

    The mutex [m_mut] is not modelled: every member function runs to
    completion before the next one starts. *)

From Stdlib Require Import ZArith.
From stdpp Require Import base gmap strings list fin_maps.

#[local] Set Warnings "-clear-no-such-hyp".

Local Open Scope Z_scope.

(** ** Constants of pipeline.cpp *)

Definition DEFAULT_CONCURRENT_QUERIES : Z := 4.
Definition MAX_CONCURRENT_QUERIES : Z := 16.
Definition CLEANUP_TIMEOUT : Z := 5 * 60 * 1000.

(** [qBound( min, val, max )] of QtGlobal: [qMax( min, qMin( max, val ) )]. *)
Definition qBound (min val max : Z) : Z := Z.max min (Z.min max val).

(** Conversion of an integer to a 32-bit [int] (two's complement). *)
Definition to_int (z : Z) : Z := (z + 2 ^ 31) mod 2 ^ 32 - 2 ^ 31.

(** ** Identifiers, pointers and the collaborators of the pipeline *)

Abbreviation QID := string (only parsing).
Abbreviation RID := string (only parsing).

(** A [query_ptr] is the address of a query object; equality of two
    [query_ptr] is equality of addresses. *)
Abbreviation query_ptr := positive (only parsing).

(** A [result_ptr]: the address of a result and the [id()] it answers. *)
Record result_ptr : Type := Result { result_addr : positive; rid : RID }.

#[global] Instance result_ptr_eq_dec : EqDecision result_ptr.
Proof. solve_decision. Defined.

(** A [Resolver*]: the address of the resolver object with what [name()],
    [weight()] and [timeout()] answer for it.  The pointers the pipeline
    holds are never null: [addResolver] dereferences its argument. *)
Record Resolver : Type := MkResolver {
  resolver_addr : positive;
  name : string;
  weight : Z;
  timeout : Z
}.

#[global] Instance Resolver_eq_dec : EqDecision Resolver.
Proof. solve_decision. Defined.

(** The part of the [Query] class the pipeline calls.  The class itself is
    not part of pipeline.cpp, so the pipeline is modelled over any
    implementation of these member functions; [id()] is kept apart from
    them (see [QueryObj]) because it never changes for a query object. *)
Class QueryClass (Q : Type) : Type := {
  addResults : list result_ptr → Q → Q;
  results : Q → list result_ptr;
  playable : Q → bool;
  isFullTextQuery : Q → bool;
  resolvingFinished : Q → bool;
  resolvedBy : Q → list Resolver;
  setCurrentResolver : option Resolver → Q → Q;
  onResolvingFinished : Q → Q
}.

(** A query object: its immutable [id()] and its mutable part. *)
Record QueryObj (Q : Type) : Type := MkQueryObj { id : QID; self : Q }.
Arguments MkQueryObj {Q} _ _.
Arguments id {Q} _.
Arguments self {Q} _.

(** ** Timers *)

(** [QTimer]: whether it is running, its interval, and the time left until
    it fires next (meaningful while it is running). *)
Record QTimer : Type := MkQTimer {
  isActive : bool;
  interval : Z;
  remaining : Z
}.

Definition QTimer_setInterval (msec : Z) (t : QTimer) : QTimer :=
  {| isActive := isActive t; interval := msec; remaining := remaining t |}.
Definition QTimer_start (t : QTimer) : QTimer :=
  {| isActive := true; interval := interval t; remaining := interval t |}.
Definition QTimer_stop (t : QTimer) : QTimer :=
  {| isActive := false; interval := interval t; remaining := remaining t |}.

(** What a [FuncTimeout] calls when it fires: the three [boost::bind]
    closures built in pipeline.cpp. *)
Inductive Func : Type :=
  | bind_shunt (q : query_ptr)
  | bind_shuntNext
  | bind_timeoutShunt (q : query_ptr).

#[global] Instance Func_eq_dec : EqDecision Func.
Proof. solve_decision. Defined.

(** [new FuncTimeout( ms, func, this )]: a one-shot timer owned by the
    pipeline. *)
Record FuncTimeout : Type := MkFuncTimeout { ft_ms : Z; ft_func : Func }.

#[global] Instance FuncTimeout_eq_dec : EqDecision FuncTimeout.
Proof. solve_decision. Defined.

(** ** What the pipeline sends out *)

Inductive DebugLine : Type :=
  | dbg_shunting_pending (n : nat)
  | dbg_adding_resolver (nm : string)
  | dbg_result_too_late (qid : QID)
  | dbg_dispatching (r : Resolver) (q : query_ptr)
  | dbg_func_info.

Inductive Effect : Type :=
  | resolverRemoved (r : Resolver)      (* signal *)
  | resolverAdded (r : Resolver)        (* signal *)
  | resolving (q : query_ptr)           (* signal *)
  | idle                                (* signal *)
  | Resolver_resolve (r : Resolver) (q : query_ptr)   (* r->resolve( q ) *)
  | Debug (l : DebugLine).

#[global] Instance DebugLine_eq_dec : EqDecision DebugLine.
Proof. solve_decision. Defined.
#[global] Instance Effect_eq_dec : EqDecision Effect.
Proof. solve_decision. Defined.

(** The resolver calls among what was sent out. *)
Definition resolver_calls (l : list Effect) : list (Resolver * query_ptr) :=
  omap (λ e, match e with Resolver_resolve r q => Some (r, q) | _ => None end) l.

(** [QList::insert( i, v )]: [v] goes before index [i]; an index at or past
    the end appends. *)
Definition QList_insert {A : Type} (i : nat) (v : A) (l : list A) : list A :=
  take i l ++ v :: drop i l.

(** [QList::removeAll( v )]. *)
Definition QList_removeAll {A : Type} `{EqDecision A} (v : A) (l : list A) : list A :=
  filter (λ x, x ≠ v) l.

(** [QList::takeAt( i )] for an index in range: the element and the rest. *)
Definition QList_takeAt {A : Type} (i : nat) (l : list A) : option (A * list A) :=
  match l !! i with
  | Some x => Some (x, take i l ++ drop (S i) l)
  | None => None
  end.

Section Pipeline.

Context {Q : Type} `{QC : QueryClass Q}.

(** ** The state *)

(** The member variables of [Pipeline], then the two things the member
    functions reach through pointers: the [FuncTimeout] objects that are
    armed and the query objects. *)
Record Pipeline : Type := MkPipeline {
  m_running : bool;
  m_maxConcurrentQueries : Z;
  m_resolvers : list Resolver;
  m_qids : gmap string query_ptr;
  m_rids : gmap string result_ptr;
  m_qidsState : gmap string Z;
  m_qidsTimeout : gmap string bool;
  m_queries_pending : list query_ptr;
  m_queries_temporary : list query_ptr;
  m_temporaryQueryTimer : QTimer;
  func_timeouts : list FuncTimeout;
  queries : query_ptr → QueryObj Q
}.

Definition set_running (b : bool) (s : Pipeline) : Pipeline :=
  MkPipeline b (m_maxConcurrentQueries s) (m_resolvers s) (m_qids s) (m_rids s)
    (m_qidsState s) (m_qidsTimeout s) (m_queries_pending s)
    (m_queries_temporary s) (m_temporaryQueryTimer s) (func_timeouts s) (queries s).

Definition upd_resolvers (f : list Resolver → list Resolver) (s : Pipeline) : Pipeline :=
  MkPipeline (m_running s) (m_maxConcurrentQueries s) (f (m_resolvers s)) (m_qids s)
    (m_rids s) (m_qidsState s) (m_qidsTimeout s) (m_queries_pending s)
    (m_queries_temporary s) (m_temporaryQueryTimer s) (func_timeouts s) (queries s).

Definition upd_qids (f : gmap string query_ptr → gmap string query_ptr)
    (s : Pipeline) : Pipeline :=
  MkPipeline (m_running s) (m_maxConcurrentQueries s) (m_resolvers s) (f (m_qids s))
    (m_rids s) (m_qidsState s) (m_qidsTimeout s) (m_queries_pending s)
    (m_queries_temporary s) (m_temporaryQueryTimer s) (func_timeouts s) (queries s).

Definition upd_rids (f : gmap string result_ptr → gmap string result_ptr)
    (s : Pipeline) : Pipeline :=
  MkPipeline (m_running s) (m_maxConcurrentQueries s) (m_resolvers s) (m_qids s)
    (f (m_rids s)) (m_qidsState s) (m_qidsTimeout s) (m_queries_pending s)
    (m_queries_temporary s) (m_temporaryQueryTimer s) (func_timeouts s) (queries s).

Definition upd_qidsState (f : gmap string Z → gmap string Z) (s : Pipeline) : Pipeline :=
  MkPipeline (m_running s) (m_maxConcurrentQueries s) (m_resolvers s) (m_qids s)
    (m_rids s) (f (m_qidsState s)) (m_qidsTimeout s) (m_queries_pending s)
    (m_queries_temporary s) (m_temporaryQueryTimer s) (func_timeouts s) (queries s).

Definition upd_qidsTimeout (f : gmap string bool → gmap string bool)
    (s : Pipeline) : Pipeline :=
  MkPipeline (m_running s) (m_maxConcurrentQueries s) (m_resolvers s) (m_qids s)
    (m_rids s) (m_qidsState s) (f (m_qidsTimeout s)) (m_queries_pending s)
    (m_queries_temporary s) (m_temporaryQueryTimer s) (func_timeouts s) (queries s).

Definition upd_pending (f : list query_ptr → list query_ptr) (s : Pipeline) : Pipeline :=
  MkPipeline (m_running s) (m_maxConcurrentQueries s) (m_resolvers s) (m_qids s)
    (m_rids s) (m_qidsState s) (m_qidsTimeout s) (f (m_queries_pending s))
    (m_queries_temporary s) (m_temporaryQueryTimer s) (func_timeouts s) (queries s).

Definition upd_temporary (f : list query_ptr → list query_ptr) (s : Pipeline) : Pipeline :=
  MkPipeline (m_running s) (m_maxConcurrentQueries s) (m_resolvers s) (m_qids s)
    (m_rids s) (m_qidsState s) (m_qidsTimeout s) (m_queries_pending s)
    (f (m_queries_temporary s)) (m_temporaryQueryTimer s) (func_timeouts s) (queries s).

Definition upd_timer (f : QTimer → QTimer) (s : Pipeline) : Pipeline :=
  MkPipeline (m_running s) (m_maxConcurrentQueries s) (m_resolvers s) (m_qids s)
    (m_rids s) (m_qidsState s) (m_qidsTimeout s) (m_queries_pending s)
    (m_queries_temporary s) (f (m_temporaryQueryTimer s)) (func_timeouts s) (queries s).

Definition upd_func_timeouts (f : list FuncTimeout → list FuncTimeout)
    (s : Pipeline) : Pipeline :=
  MkPipeline (m_running s) (m_maxConcurrentQueries s) (m_resolvers s) (m_qids s)
    (m_rids s) (m_qidsState s) (m_qidsTimeout s) (m_queries_pending s)
    (m_queries_temporary s) (m_temporaryQueryTimer s) (f (func_timeouts s)) (queries s).

(** A member function called on the object behind [q]: the object changes,
    its [id()] does not. *)
Definition upd_query (q : query_ptr) (f : Q → Q) (s : Pipeline) : Pipeline :=
  MkPipeline (m_running s) (m_maxConcurrentQueries s) (m_resolvers s) (m_qids s)
    (m_rids s) (m_qidsState s) (m_qidsTimeout s) (m_queries_pending s)
    (m_queries_temporary s) (m_temporaryQueryTimer s) (func_timeouts s)
    (λ p, if decide (p = q)
          then MkQueryObj (id (queries s p)) (f (self (queries s p)))
          else queries s p).

(** [q->id()] *)
Definition qid_of (s : Pipeline) (q : query_ptr) : QID := id (queries s q).

(** ** The monad of member functions *)

Definition M (A : Type) : Type := Pipeline → A * Pipeline * list Effect.

#[global] Instance M_ret : MRet M := λ A a s, (a, s, []).
#[global] Instance M_bind : MBind M := λ A B f m s,
  let r1 := m s in
  let r2 := f r1.1.1 r1.1.2 in
  (r2.1.1, r2.1.2, r1.2 ++ r2.2).

Definition gets {A : Type} (f : Pipeline → A) : M A := λ s, (f s, s, []).
Definition modify (f : Pipeline → Pipeline) : M unit := λ s, (tt, f s, []).
Definition emit (e : Effect) : M unit := λ s, (tt, s, [e]).
Definition when (b : bool) (m : M unit) : M unit := if b then m else mret tt.

(** The state a member function leaves, and what it sent out. *)
Definition exec {A : Type} (m : M A) (s : Pipeline) : Pipeline := (m s).1.2.
Definition output {A : Type} (m : M A) (s : Pipeline) : list Effect := (m s).2.
Definition value {A : Type} (m : M A) (s : Pipeline) : A := (m s).1.1.

Definition new_FuncTimeout (ms : Z) (f : Func) : M unit :=
  modify (upd_func_timeouts (λ l, l ++ [MkFuncTimeout ms f])).

(** ** The member functions *)

(** [Pipeline::Pipeline]; [idealThreadCount] is what
    [QThread::idealThreadCount()] answers, [objs] the query objects.  The
    debug line of the constructor is left out. *)
Definition Pipeline_new (idealThreadCount : Z) (objs : query_ptr → QueryObj Q)
    : Pipeline :=
  {| m_running := false;
     m_maxConcurrentQueries :=
       qBound DEFAULT_CONCURRENT_QUERIES idealThreadCount MAX_CONCURRENT_QUERIES;
     m_resolvers := [];
     m_qids := ∅;
     m_rids := ∅;
     m_qidsState := ∅;
     m_qidsTimeout := ∅;
     m_queries_pending := [];
     m_queries_temporary := [];
     m_temporaryQueryTimer :=
       QTimer_setInterval CLEANUP_TIMEOUT (MkQTimer false 0 0);
     func_timeouts := [];
     queries := objs |}.

Definition removeResolver (r : Resolver) : M unit :=
  modify (upd_resolvers (QList_removeAll r));;
  emit (resolverRemoved r).

Definition addResolver (r : Resolver) : M unit :=
  emit (Debug (dbg_adding_resolver (name r)));;
  modify (upd_resolvers (λ l, l ++ [r]));;
  emit (resolverAdded r).

(** The scan of [Pipeline::nextResolver], with [newResolver] as the
    accumulator ([None] is the null pointer). *)
Fixpoint nextResolver_scan (tried : list Resolver) (rs : list Resolver)
    (newResolver : option Resolver) : option Resolver :=
  match rs with
  | [] => newResolver
  | r :: rs' =>
      if bool_decide (r ∈ tried) then nextResolver_scan tried rs' newResolver
      else match newResolver with
           | None => nextResolver_scan tried rs' (Some r)
           | Some cur =>
               if bool_decide (weight r > weight cur)
               then nextResolver_scan tried rs' (Some r)
               else nextResolver_scan tried rs' newResolver
           end
  end.

Definition nextResolver (query : query_ptr) (s : Pipeline) : option Resolver :=
  nextResolver_scan (resolvedBy (self (queries s query))) (m_resolvers s) None.

Definition setQIDState (query : query_ptr) (state : Z) : M unit :=
  qid ← gets (λ s, qid_of s query);
  waiting ← gets (λ s, bool_decide (is_Some (m_qidsTimeout s !! qid)));
  when waiting (modify (upd_qidsTimeout (delete qid)));;
  if bool_decide (state > 0) then
    modify (upd_qidsState (<[qid := state]>));;
    new_FuncTimeout 0 (bind_shunt query)
  else
    modify (upd_qidsState (delete qid));;
    modify (upd_query query onResolvingFinished);;
    temp ← gets (λ s, bool_decide (query ∈ m_queries_temporary s));
    when (negb temp) (modify (upd_qids (delete qid)));;
    new_FuncTimeout 0 bind_shuntNext.

Definition incQIDState (query : query_ptr) : M Z :=
  qid ← gets (λ s, qid_of s query);
  cur ← gets (λ s, m_qidsState s !! qid);
  let state := match cur with
               | Some v => to_int (v + 1)
               | None => 1
               end in
  modify (upd_qidsState (<[qid := state]>));;
  mret state.

Definition decQIDState (query : query_ptr) : M Z :=
  qid ← gets (λ s, qid_of s query);
  cur ← gets (λ s, m_qidsState s !! qid);
  match cur with
  | None => mret 0
  | Some v =>
      let state := to_int (v - 1) in
      setQIDState query state;;
      mret state
  end.

Definition shuntNext : M unit :=
  running ← gets m_running;
  if negb running then mret tt
  else
    rc ← gets (λ s, Z.of_nat (length (m_resolvers s)));
    pending ← gets m_queries_pending;
    match pending with
    | [] =>
        none ← gets (λ s, bool_decide (m_qidsState s = ∅));
        when none (emit idle)
    | q :: rest =>
        count ← gets (λ s, Z.of_nat (size (m_qidsState s)));
        cap ← gets m_maxConcurrentQueries;
        if bool_decide (count >= cap) then mret tt
        else
          modify (upd_pending (λ _, rest));;
          modify (upd_query q (setCurrentResolver None));;
          setQIDState q (to_int rc)
    end.

Definition timeoutShunt (q : query_ptr) : M unit :=
  running ← gets m_running;
  if negb running then mret tt
  else
    waiting ← gets (λ s, bool_decide (is_Some (m_qidsTimeout s !! qid_of s q)));
    if (waiting : bool) then (decQIDState q;; mret tt) else mret tt.

Definition shunt (q : query_ptr) : M unit :=
  running ← gets m_running;
  if negb running then mret tt
  else
    finished ← gets (λ s, resolvingFinished (self (queries s q)));
    r ← (if negb finished then gets (nextResolver q) else mret None);
    match r with
    | Some r =>
        emit (Debug (dbg_dispatching r q));;
        modify (upd_query q (setCurrentResolver (Some r)));;
        emit (Resolver_resolve r q);;
        emit (resolving q);;
        qid ← gets (λ s, qid_of s q);
        modify (upd_qidsTimeout (<[qid := true]>));;
        when (bool_decide (timeout r > 0))
          (new_FuncTimeout (timeout r) (bind_timeoutShunt q));;
        shuntNext
    | None =>
        (* we get here if we disable a resolver while a query is resolving *)
        setQIDState q 0
    end.

(** One round of the [foreach] of [Pipeline::resolve]; [i] is the local
    counter of the prioritized insertions made so far. *)
Definition resolve_round (prioritized temporaryQuery : bool) (q : query_ptr)
    (i : nat) : M nat :=
  qid ← gets (λ s, qid_of s q);
  known ← gets (λ s, bool_decide (is_Some (m_qids s !! qid)));
  when (negb known) (modify (upd_qids (<[qid := q]>)));;
  queued ← gets (λ s, bool_decide (q ∈ m_queries_pending s));
  if (queued : bool) then mret i
  else
    i' ← (if prioritized
          then modify (upd_pending (QList_insert i q));; mret (S i)
          else modify (upd_pending (λ l, l ++ [q]));; mret i);
    when temporaryQuery
      (modify (upd_temporary (λ l, l ++ [q]));;
       active ← gets (λ s, isActive (m_temporaryQueryTimer s));
       when active (modify (upd_timer QTimer_stop));;
       modify (upd_timer QTimer_start));;
    mret i'.

Fixpoint resolve_loop (prioritized temporaryQuery : bool) (qlist : list query_ptr)
    (i : nat) : M unit :=
  match qlist with
  | [] => mret tt
  | q :: qlist' =>
      i' ← resolve_round prioritized temporaryQuery q i;
      resolve_loop prioritized temporaryQuery qlist' i'
  end.

(** [Pipeline::resolve( const QList<query_ptr>&, bool, bool )] *)
Definition resolve (qlist : list query_ptr) (prioritized temporaryQuery : bool)
    : M unit :=
  resolve_loop prioritized temporaryQuery qlist 0;;
  shuntNext.

(** [Pipeline::resolve( const query_ptr&, bool, bool )]; [None] is the null
    pointer. *)
Definition resolve_query (q : option query_ptr) (prioritized temporaryQuery : bool)
    : M unit :=
  match q with
  | None => mret tt
  | Some q => resolve [q] prioritized temporaryQuery
  end.

(** [Pipeline::resolve( QID, bool, bool )].
    Modelled from the spec: [query( qid )] is declared in pipeline.h, which
    is not among the sources; it is taken to be the ledger lookup
    [m_qids.value( qid )], null when the id is unknown. *)
Definition resolve_qid (qid : QID) (prioritized temporaryQuery : bool) : M unit :=
  q ← gets (λ s, m_qids s !! qid);
  resolve_query q prioritized temporaryQuery.

Definition reportResults (qid : QID) (res : list result_ptr) : M unit :=
  running ← gets m_running;
  if negb running then mret tt
  else
    known ← gets (λ s, m_qids s !! qid);
    match known with
    | None => emit (Debug (dbg_result_too_late qid))
    | Some q =>
        if bool_decide (res ≠ []) then
          modify (upd_query q (addResults res));;
          all ← gets (λ s, results (self (queries s q)));
          modify (upd_rids (λ m, foldl (λ m r, <[rid r := r]> m) m all));;
          enough ← gets (λ s, playable (self (queries s q))
                               && negb (isFullTextQuery (self (queries s q))));
          if (enough : bool) then setQIDState q 0
          else (decQIDState q;; mret tt)
        else (decQIDState q;; mret tt)
    end.

Definition start : M unit :=
  n ← gets (λ s, length (m_queries_pending s));
  emit (Debug (dbg_shunting_pending n));;
  modify (set_running true);;
  shuntNext.

Definition stop : M unit := modify (set_running false).

(** The loop of [onTemporaryQueryTimer], from index [n - 1] down to 0. *)
Fixpoint reap_loop (n : nat) : M unit :=
  match n with
  | O => mret tt
  | S i =>
      taken ← gets (λ s, QList_takeAt i (m_queries_temporary s));
      match taken with
      | Some (q, rest) =>
          modify (upd_temporary (λ _, rest));;
          qid ← gets (λ s, qid_of s q);
          modify (upd_qids (delete qid))
      | None => mret tt
      end;;
      reap_loop i
  end.

Definition onTemporaryQueryTimer : M unit :=
  emit (Debug dbg_func_info);;
  modify (upd_timer QTimer_stop);;
  n ← gets (λ s, length (m_queries_temporary s));
  reap_loop n.

(** ** The pipeline in its environment *)

(** What can happen to a pipeline: a call of one of its entry points, one
    of its timers firing, time passing, or the owner of a query object
    (a resolver, the caller) changing that object. *)
Inductive Event : Type :=
  | call_start
  | call_stop
  | call_addResolver (r : Resolver)
  | call_removeResolver (r : Resolver)
  | call_resolve (qlist : list query_ptr) (prioritized temporaryQuery : bool)
  | call_resolve_query (q : option query_ptr) (prioritized temporaryQuery : bool)
  | call_resolve_qid (qid : QID) (prioritized temporaryQuery : bool)
  | call_reportResults (qid : QID) (res : list result_ptr)
  | fire_FuncTimeout (n : nat)
  | fire_temporaryQueryTimer
  | time_passes (ms : Z)
  | query_changed (q : query_ptr) (f : Q → Q).

Definition call_Func (f : Func) : M unit :=
  match f with
  | bind_shunt q => shunt q
  | bind_shuntNext => shuntNext
  | bind_timeoutShunt q => timeoutShunt q
  end.

(** The [n]-th armed [FuncTimeout] fires: it is gone and its function runs. *)
Definition FuncTimeout_fires (n : nat) : M unit :=
  t ← gets (λ s, func_timeouts s !! n);
  match t with
  | None => mret tt
  | Some ft =>
      modify (upd_func_timeouts (delete n));;
      call_Func (ft_func ft)
  end.

Definition QTimer_elapse (ms : Z) (t : QTimer) : QTimer :=
  if isActive t && bool_decide (0 < ms < remaining t)
  then {| isActive := true; interval := interval t; remaining := remaining t - ms |}
  else t.

Definition step (e : Event) : M unit :=
  match e with
  | call_start => start
  | call_stop => stop
  | call_addResolver r => addResolver r
  | call_removeResolver r => removeResolver r
  | call_resolve qlist p t => resolve qlist p t
  | call_resolve_query q p t => resolve_query q p t
  | call_resolve_qid qid p t => resolve_qid qid p t
  | call_reportResults qid res => reportResults qid res
  | fire_FuncTimeout n => FuncTimeout_fires n
  | fire_temporaryQueryTimer =>
      active ← gets (λ s, isActive (m_temporaryQueryTimer s));
      when active onTemporaryQueryTimer
  | time_passes ms => modify (upd_timer (QTimer_elapse ms))
  | query_changed q f => modify (upd_query q f)
  end.

Definition run (es : list Event) (s : Pipeline) : Pipeline :=
  foldl (λ s e, exec (step e) s) s es.

(** What the pipeline sends out over a sequence of events. *)
Fixpoint trace (es : list Event) (s : Pipeline) : list Effect :=
  match es with
  | [] => []
  | e :: es' => output (step e) s ++ trace es' (exec (step e) s)
  end.

(** The states the pipeline reaches when each event is through before the
    next begins: a member function runs from its first line to its last
    with nothing in between.  Two dispatch passes that overlap where
    [shuntNext] releases [m_mut] are [two_overlapping_passes] below. *)
Inductive reachable : Pipeline → Prop :=
  | reachable_new (idealThreadCount : Z) (objs : query_ptr → QueryObj Q) :
      reachable (Pipeline_new idealThreadCount objs)
  | reachable_step (s : Pipeline) (e : Event) :
      reachable s → reachable (exec (step e) s).

(** ** Notions the statements use *)

(** [r] is the resolver a scan of [rs] in registration order selects among
    those not in [tried]: it is untried, every untried resolver registered
    before it is strictly lighter, none registered after it is heavier. *)
Definition best_untried (tried rs : list Resolver) (r : Resolver) : Prop :=
  ∃ before after : list Resolver,
    rs = before ++ r :: after ∧
    (r ∉ tried) ∧
    (∀ x, x ∈ before → x ∉ tried → weight x < weight r) ∧
    (∀ x, x ∈ after → x ∉ tried → weight x ≤ weight r).

(** The requests of a batch that a submission newly inserts into a queue
    holding [queued]: those not queued yet, each once, in batch order. *)
Fixpoint newly_inserted (queued : list query_ptr) (batch : list query_ptr)
    : list query_ptr :=
  match batch with
  | [] => []
  | q :: batch' =>
      if bool_decide (q ∈ queued) then newly_inserted queued batch'
      else q :: newly_inserted (q :: queued) batch'
  end.

(** Every ledger entry is filed under the id of the query it points to. *)
Definition ledger_wf (s : Pipeline) : Prop :=
  ∀ (qid : QID) (q : query_ptr), m_qids s !! qid = Some q → qid_of s q = qid.

End Pipeline.

Arguments Pipeline Q : clear implicits.
Arguments Event Q : clear implicits.

(** Modelled from the spec: what sections 3 and 6 say of the request object
    that pipeline.cpp relies on (the [Query] class is not among the
    sources).  The id of a request is its identity; a request that was told
    that resolving has finished stays finished: neither new results nor the
    assignment of a resolver bring it back. *)
Class QueryLaws (Q : Type) `{QueryClass Q} : Prop := {
  finished_onResolvingFinished :
    ∀ x : Q, resolvingFinished (onResolvingFinished x) = true;
  finished_addResults :
    ∀ (res : list result_ptr) (x : Q),
      resolvingFinished x = true → resolvingFinished (addResults res x) = true;
  finished_setCurrentResolver :
    ∀ (r : option Resolver) (x : Q),
      resolvingFinished x = true →
      resolvingFinished (setCurrentResolver r x) = true
}.

(** ** Notions for stating what the member functions do *)

Section Notions.

Context {Q : Type} `{QC : QueryClass Q}.

Implicit Types (s : Pipeline Q) (q : query_ptr).

(** [obeys R m]: the state [m] leaves is related by [R] to the state it
    started from. *)
Definition obeys {A : Type} (R : relation (Pipeline Q)) (m : M A) : Prop :=
  ∀ s, R s (exec m s).

(** [keeps f]: the part [f] of the state is left as it was. *)
Definition keeps {A : Type} (f : Pipeline Q → A) : relation (Pipeline Q) :=
  λ s s', f s' = f s.

(** No member function changes what [id()] answers for a query object. *)
Definition same_ids : relation (Pipeline Q) :=
  λ s s', ∀ p, qid_of s' p = qid_of s p.

(** A well-formed ledger is left well formed. *)
Definition keeps_ledger_wf : relation (Pipeline Q) :=
  λ s s', ledger_wf s → ledger_wf s'.

(** The cap and the budget map. *)
Definition budget_of s : Z * gmap string Z :=
  (m_maxConcurrentQueries s, m_qidsState s).

(** The cap is respected. *)
Definition budget_ok s : Prop :=
  Z.of_nat (size (m_qidsState s)) ≤ m_maxConcurrentQueries s.

(** No id gains a budget entry (and the cap is what it was). *)
Definition shrinks : relation (Pipeline Q) :=
  λ s s', m_maxConcurrentQueries s' = m_maxConcurrentQueries s ∧
          dom (m_qidsState s') ⊆ dom (m_qidsState s).

(** At most one id gains a budget entry, and only if the map held fewer
    entries than the cap (and the cap is what it was). *)
Definition adds_one_below_cap : relation (Pipeline Q) :=
  λ s s', m_maxConcurrentQueries s' = m_maxConcurrentQueries s ∧
          (dom (m_qidsState s') ⊆ dom (m_qidsState s) ∨
           (Z.of_nat (size (m_qidsState s)) < m_maxConcurrentQueries s ∧
            ∃ k : QID, dom (m_qidsState s') ⊆ {[k]} ∪ dom (m_qidsState s))).

(** [m] never emits [idle]. *)
Definition never_idle {A : Type} (m : M A) : Prop := ∀ s, idle ∉ output m s.

(** If [m] emits [idle], it leaves a running pipeline with nothing pending
    and no budget entry. *)
Definition idle_only_when_empty {A : Type} (m : M A) : Prop :=
  ∀ s, idle ∈ output m s →
       m_running (exec m s) = true ∧
       m_queries_pending (exec m s) = [] ∧
       m_qidsState (exec m s) = ∅.

(** [m] sends nothing out. *)
Definition silent {A : Type} (m : M A) : Prop := ∀ s, output m s = [].

(** The pipeline after [q->addResults( results )] and the indexing of every
    result of [q] in [m_rids] (the block under [!results.isEmpty()]). *)
Definition results_added (q : query_ptr) (res : list result_ptr) s : Pipeline Q :=
  let s1 := upd_query q (addResults res) s in
  upd_rids (λ m, foldl (λ m x, <[rid x := x]> m) m (results (self (queries s1 q)))) s1.

(** [q->playable() && !q->isFullTextQuery()] once [res] was added. *)
Definition early_success (q : query_ptr) (res : list result_ptr) s : bool :=
  playable (addResults res (self (queries s q)))
  && negb (isFullTextQuery (addResults res (self (queries s q)))).

(** The timer once the loop of a submission is through: started afresh if
    a temporary request was inserted, untouched otherwise. *)
Definition timer_after (temporaryQuery : bool) (fresh : list query_ptr)
    (t : QTimer) : QTimer :=
  if temporaryQuery && bool_decide (fresh ≠ []) then QTimer_start t else t.

(** The pending queue once the loop of a submission is through. *)
Definition queue_after (prioritized : bool) (qlist pending : list query_ptr)
    : list query_ptr :=
  if prioritized then newly_inserted pending qlist ++ pending
  else pending ++ newly_inserted pending qlist.

(** What the loop of a submission leaves alone. *)
Definition dispatch_view s : bool * Z * gmap string Z * list Resolver :=
  (m_running s, m_maxConcurrentQueries s, m_qidsState s, m_resolvers s).

(** What a dispatch pass leaves alone. *)
Definition reaper_view s : list query_ptr * QTimer :=
  (m_queries_temporary s, m_temporaryQueryTimer s).

(** A budget slot is free and the pipeline runs: a dispatch pass takes the
    head of the queue. *)
Definition dispatches s : bool :=
  m_running s
  && bool_decide (Z.of_nat (size (m_qidsState s)) < m_maxConcurrentQueries s).

(** An id the ledger does not hold is not brought back. *)
Definition stays_absent (k : QID) : relation (Pipeline Q) :=
  λ s s', m_qids s !! k = None → m_qids s' !! k = None.

(** [preserves I]: a state in which [I] holds is left in a state in which
    [I] holds. *)
Definition preserves (I : Pipeline Q → Prop) : relation (Pipeline Q) :=
  λ s s', I s → I s'.

(** [m] calls no resolver. *)
Definition never_calls {A : Type} (m : M A) : Prop :=
  ∀ s, resolver_calls (output m s) = [].

(** The resolver [shunt] goes to for [q]: what [nextResolver] selects, if
    the pipeline runs and the request has not finished resolving. *)
Definition selected (q : query_ptr) s : option Resolver :=
  if m_running s && negb (resolvingFinished (self (queries s q)))
  then nextResolver q s else None.

(** The pipeline once [shunt] has handed [q] to [r], before the dispatch
    pass that ends [shunt]: [r] is the current resolver of [q], the timeout
    flag of [q] is set, and the timeout of [r], if it has one, is armed. *)
Definition dispatched (q : query_ptr) (r : Resolver) s : Pipeline Q :=
  let s1 :=
    upd_qidsTimeout (<[qid_of s q := true]>)
      (upd_query q (setCurrentResolver (Some r)) s) in
  if bool_decide (timeout r > 0)
  then upd_func_timeouts
         (λ l, l ++ [MkFuncTimeout (timeout r) (bind_timeoutShunt q)]) s1
  else s1.

(** Every budget in the map is a positive [int]. *)
Definition budgets_positive s : Prop :=
  ∀ (k : QID) (v : Z), m_qidsState s !! k = Some v → 0 < v < 2 ^ 31.

(** No request is queued twice. *)
Definition pending_NoDup s : Prop := NoDup (m_queries_pending s).

(** What the reaper leaves alone. *)
Definition reaper_frame s :
    bool * Z * list Resolver * gmap string result_ptr * gmap string Z
    * gmap string bool * list query_ptr * list FuncTimeout :=
  (m_running s, m_maxConcurrentQueries s, m_resolvers s, m_rids s, m_qidsState s,
   m_qidsTimeout s, m_queries_pending s, func_timeouts s).

(** *** The dispatch pass and its lock *)

(** The block of [Pipeline::shuntNext] that runs under [m_mut] (lines 204 to
    225): the registry is counted, the cap is checked and the head of the
    queue is taken.  It answers the request taken and the count [rc], or
    nothing when the pass ends inside the block. *)
Definition shuntNext_locked : M (option (query_ptr * Z)) :=
  rc ← gets (λ s, Z.of_nat (length (m_resolvers s)));
  pending ← gets m_queries_pending;
  match pending with
  | [] =>
      none ← gets (λ s, bool_decide (m_qidsState s = ∅));
      when none (emit idle);;
      mret None
  | q :: rest =>
      count ← gets (λ s, Z.of_nat (size (m_qidsState s)));
      cap ← gets m_maxConcurrentQueries;
      if bool_decide (count >= cap) then mret None
      else
        modify (upd_pending (λ _, rest));;
        modify (upd_query q (setCurrentResolver None));;
        mret (Some (q, rc))
  end.

(** What [shuntNext] does once the lock is released (line 227): the call
    [setQIDState( q, rc )], which takes the lock anew. *)
Definition shuntNext_unlocked (taken : option (query_ptr * Z)) : M unit :=
  match taken with
  | Some (q, rc) => setQIDState q (to_int rc)
  | None => mret tt
  end.

(** [shuntNext] up to the point where it releases the lock (lines 199 to
    225): the check of [m_running], then the locked block. *)
Definition shuntNext_to_unlock : M (option (query_ptr * Z)) :=
  running ← gets m_running;
  if negb running then mret None else shuntNext_locked.

(** [shuntNext] with the lock boundary shown. *)
Definition shuntNext_in_two_steps : M unit :=
  taken ← shuntNext_to_unlock;
  shuntNext_unlocked taken.

(** Two dispatch passes on two threads, the second entering the locked
    block after the first has left it and before the first has called
    [setQIDState]. *)
Definition two_overlapping_passes s : Pipeline Q :=
  let first := value shuntNext_to_unlock s in
  let s1 := exec shuntNext_to_unlock s in
  let second := value shuntNext_to_unlock s1 in
  let s2 := exec shuntNext_to_unlock s1 in
  exec (shuntNext_unlocked second) (exec (shuntNext_unlocked first) s2).

(** *** Requests with ids of their own *)









(** *** The ledger after a submission *)

(** The first request of a batch whose id is [k]. *)
Definition first_with_id s (k : QID) (qlist : list query_ptr) : option query_ptr :=
  head (filter (λ q, qid_of s q = k) qlist).

(** The ledger entry of [k] once the loop of a submission is through: the
    entry the ledger held, or else the first request of the batch with
    that id. *)
Definition ledger_after s (qlist : list query_ptr) (k : QID) : option query_ptr :=
  match m_qids s !! k with
  | Some x => Some x
  | None => first_with_id s k qlist
  end.

End Notions.

(** Modelled from the spec: the request object of sections 3 and 6 (the
    [Query] class is not part of pipeline.cpp).  It holds an ordered
    collection of results, the resolvers already attempted and the one
    currently assigned; it is satisfied once it holds a result; the
    finished callback is remembered. *)
Record SimpleQuery : Type := MkSimpleQuery {
  sq_results : list result_ptr;
  sq_resolvedBy : list Resolver;
  sq_currentResolver : option Resolver;
  sq_fullText : bool;
  sq_finished : bool
}.

#[global] Instance SimpleQuery_class : QueryClass SimpleQuery := {|
  addResults rs q :=
    MkSimpleQuery (sq_results q ++ rs) (sq_resolvedBy q) (sq_currentResolver q)
      (sq_fullText q) (sq_finished q);
  results := sq_results;
  playable q := bool_decide (sq_results q ≠ []);
  isFullTextQuery := sq_fullText;
  resolvingFinished := sq_finished;
  resolvedBy := sq_resolvedBy;
  setCurrentResolver r q :=
    MkSimpleQuery (sq_results q)
      (match r with Some r => sq_resolvedBy q ++ [r] | None => sq_resolvedBy q end)
      r (sq_fullText q) (sq_finished q);
  onResolvingFinished q :=
    MkSimpleQuery (sq_results q) (sq_resolvedBy q) (sq_currentResolver q)
      (sq_fullText q) true
|}.

(** * A concrete pipeline *)

Module Scenario.

Definition R1 : Resolver := MkResolver 1 "R1" 10 0.
Definition R2 : Resolver := MkResolver 2 "R2" 20 0.
Definition R3 : Resolver := MkResolver 3 "R3" 20 100.

(** Seven query objects: five with ids of their own, two that share the id
    [x]; none has results or was tried by a resolver yet. *)
Definition objs (q : query_ptr) : QueryObj SimpleQuery :=
  MkQueryObj
    (match q with
     | 1 => "q1" | 2 => "q2" | 3 => "q3" | 4 => "q4" | 5 => "q5"
     | 6 => "x" | 7 => "x"
     | _ => "q0"
     end%positive)
    (MkSimpleQuery [] [] None false false).

(** A pipeline on a host with four cores. *)
Definition fresh : Pipeline SimpleQuery := Pipeline_new 4 objs.

(** One resolver, started, three requests submitted one by one. *)
Definition three_in_flight : Pipeline SimpleQuery :=
  run [call_addResolver R1; call_start;
       call_resolve [1%positive] false false;
       call_resolve [2%positive] false false;
       call_resolve [3%positive] false false] fresh.

Definition four_in_flight : Pipeline SimpleQuery :=
  run [call_resolve [4%positive] false false] three_in_flight.

(** One request dispatched to [R1] and waiting for its answer. *)
Definition awaiting_answer : Pipeline SimpleQuery :=
  run [call_addResolver R1; call_start;
       call_resolve [1%positive] false false;
       fire_FuncTimeout 0] fresh.

(** A request submitted before the pipeline was started. *)
Definition queued_not_started : Pipeline SimpleQuery :=
  run [call_resolve [1%positive] false false] fresh.

(** Two query objects with the id [x], the first temporary: both are
    dispatched, the first is answered with nothing and finalized, then the
    attempt of the second starts. *)
Definition flag_without_budget : Pipeline SimpleQuery :=
  run [call_addResolver R1; call_start;
       call_resolve [6%positive] false true;
       call_resolve [7%positive] false false;
       fire_FuncTimeout 0;
       call_reportResults "x" [];
       fire_FuncTimeout 0] fresh.

(** The request that waited for R1 was answered with nothing, finalized
    and evicted from the ledger. *)
Definition evicted : Pipeline SimpleQuery :=
  run [call_reportResults "q1" []] awaiting_answer.

(** Two resolvers, the heavier one with a timeout; one request dispatched
    to it and waiting, with a budget of two. *)
Definition awaiting_with_timeout : Pipeline SimpleQuery :=
  run [call_addResolver R1; call_addResolver R3; call_start;
       call_resolve [1%positive] false false;
       fire_FuncTimeout 0] fresh.

(** One request taken from the queue, its first attempt scheduled and not
    run yet. *)
Definition first_attempt_scheduled : Pipeline SimpleQuery :=
  run [call_addResolver R1; call_start;
       call_resolve [1%positive] false false] fresh.

(** A running pipeline without resolvers. *)
Definition started_empty : Pipeline SimpleQuery := run [call_start] fresh.

(** Two requests submitted before the start: the start takes the first,
    the second is still pending. *)
Definition one_left_pending : Pipeline SimpleQuery :=
  run [call_resolve [1; 2]%positive false false;
       call_addResolver R1; call_addResolver R2; call_start] fresh.

(** Four requests in flight, two more submitted and left pending, then the
    first request answered with nothing and finalized: a running pipeline
    with a cap of four, three budget entries and two pending requests. *)
Definition two_pending_one_slot : Pipeline SimpleQuery :=
  run [call_resolve [5%positive] false false;
       call_resolve [8%positive] false false;
       call_reportResults "q1" []] four_in_flight.

(** The request waiting for [R3] is answered with nothing by [R3]; the next
    attempt goes to [R1], and the request waits again, while the timeout
    armed for [R3] is still pending. *)
Definition second_attempt_waiting : Pipeline SimpleQuery :=
  run [call_reportResults "q1" []; fire_FuncTimeout 1] awaiting_with_timeout.




End Scenario.

(** * Properties *)

Section Properties.

Context {Q : Type} `{QC : QueryClass Q}.

Implicit Types (s : Pipeline Q) (q : query_ptr) (r : Resolver).

(** The query class is the one of the section throughout. *)
#[local] Abbreviation obeys := (obeys (Q:=Q)).
#[local] Abbreviation never_idle := (never_idle (Q:=Q)).
#[local] Abbreviation idle_only_when_empty := (idle_only_when_empty (Q:=Q)).
#[local] Abbreviation silent := (silent (Q:=Q)).

(** Unfolds the monad so that a member function shows as a state. *)
Ltac run_monad :=
  repeat (unfold exec, output, value, mbind, M_bind, mret, M_ret, gets, modify,
            emit, when, new_FuncTimeout in *; simpl in *).

(** ** Resolver registry *)

Lemma addResolver_resolvers r s :
  m_resolvers (exec (addResolver r) s) = m_resolvers s ++ [r].
Proof. reflexivity. Qed.

Lemma removeResolver_resolvers r s :
  m_resolvers (exec (removeResolver r) s) = QList_removeAll r (m_resolvers s).
Proof. reflexivity. Qed.

Lemma QList_removeAll_spec (r x : Resolver) (l : list Resolver) :
  x ∈ QList_removeAll r l ↔ x ∈ l ∧ x ≠ r.
Proof. unfold QList_removeAll. rewrite list_elem_of_filter. tauto. Qed.

(** ** Resolver selection *)

Lemma nextResolver_scan_spec (tried rs : list Resolver) (acc : option Resolver) :
  match nextResolver_scan tried rs acc with
  | None => acc = None ∧ Forall (λ x, x ∈ tried) rs
  | Some r =>
      (acc = Some r ∧ ∀ x, x ∈ rs → x ∉ tried → weight x ≤ weight r) ∨
      (best_untried tried rs r ∧
       match acc with Some a => weight a < weight r | None => True end)
  end.
Proof.
  revert acc. induction rs as [|r rs IH]; intros acc; simpl.
  - destruct acc as [a|]; [left; split; [done|]|done].
    intros x Hx. by apply elem_of_nil in Hx.
  - case_bool_decide as Htried.
    + specialize (IH acc).
      destruct (nextResolver_scan tried rs acc) as [b|].
      * destruct IH as [[-> Hle]|[(l1 & l2 & -> & Hb & Hl1 & Hl2) Hacc]].
        -- left. split; [done|]. intros x Hx Hn.
           apply elem_of_cons in Hx as [->|Hx]; [done|]. by apply Hle.
        -- right. split; [|done]. exists (r :: l1), l2.
           split; [done|]. split; [done|]. split; [|done].
           intros x Hx Hn. apply elem_of_cons in Hx as [->|Hx]; [done|].
           by apply Hl1.
      * destruct IH as [-> Hall]. split; [done|]. by constructor.
    + destruct acc as [a|].
      * case_bool_decide as Hw.
        -- specialize (IH (Some r)).
           destruct (nextResolver_scan tried rs (Some r)) as [b|]; [|by destruct IH].
           right. destruct IH as [[[= ->] Hle]|[(l1 & l2 & -> & Hb & Hl1 & Hl2) Hacc]].
           ++ split; [|lia]. exists [], rs. split; [done|]. split; [done|].
              split; [|done]. intros x Hx. by apply elem_of_nil in Hx.
           ++ split; [|lia]. exists (r :: l1), l2.
              split; [done|]. split; [done|]. split; [|done].
              intros x Hx Hn. apply elem_of_cons in Hx as [->|Hx]; [done|].
              by apply Hl1.
        -- specialize (IH (Some a)).
           destruct (nextResolver_scan tried rs (Some a)) as [b|]; [|by destruct IH].
           destruct IH as [[[= ->] Hle]|[(l1 & l2 & -> & Hb & Hl1 & Hl2) Hacc]].
           ++ left. split; [done|]. intros x Hx Hn.
              apply elem_of_cons in Hx as [->|Hx]; [lia|]. by apply Hle.
           ++ right. split; [|done]. exists (r :: l1), l2.
              split; [done|]. split; [done|]. split; [|done].
              intros x Hx Hn. apply elem_of_cons in Hx as [->|Hx]; [lia|].
              by apply Hl1.
      * specialize (IH (Some r)).
        destruct (nextResolver_scan tried rs (Some r)) as [b|]; [|by destruct IH].
        right. split; [|done].
        destruct IH as [[[= ->] Hle]|[(l1 & l2 & -> & Hb & Hl1 & Hl2) Hacc]].
        -- exists [], rs. split; [done|]. split; [done|].
           split; [|done]. intros x Hx. by apply elem_of_nil in Hx.
        -- exists (r :: l1), l2.
           split; [done|]. split; [done|]. split; [|done].
           intros x Hx Hn. apply elem_of_cons in Hx as [->|Hx]; [done|].
           by apply Hl1.
Qed.

Lemma best_untried_not_all_tried (tried rs : list Resolver) r :
  best_untried tried rs r → ¬ Forall (λ x, x ∈ tried) rs.
Proof.
  intros (l1 & l2 & -> & Hn & _) Hall. apply Hn.
  rewrite Forall_forall in Hall. apply Hall. set_solver.
Qed.

(** C1: the selection, for every request and registry, is the untried
    resolver that a scan in registration order keeps when it replaces its
    choice only on a strictly greater weight: no untried resolver is
    heavier, and every untried resolver registered earlier is strictly
    lighter (so the earliest registered wins a tie).  No resolver is
    selected exactly when the registry is empty or every registered
    resolver was already attempted by the request. *)
Theorem nextResolver_selects_best_untried q s :
  (nextResolver q s = None ↔
     m_resolvers s = [] ∨
     Forall (λ r, r ∈ resolvedBy (self (queries s q))) (m_resolvers s)) ∧
  match nextResolver q s with
  | Some r => best_untried (resolvedBy (self (queries s q))) (m_resolvers s) r
  | None => True
  end.
Proof.
  unfold nextResolver.
  pose proof (nextResolver_scan_spec (resolvedBy (self (queries s q)))
                (m_resolvers s) None) as Hscan.
  destruct (nextResolver_scan _ (m_resolvers s) None) as [r|].
  - destruct Hscan as [[? _]|[Hbest _]]; [done|].
    split; [|done]. split; [done|].
    intros [Hnil|Hall]; exfalso.
    + destruct Hbest as (l1 & l2 & Heq & _). rewrite Hnil in Heq.
      by destruct l1.
    + by eapply best_untried_not_all_tried.
  - destruct Hscan as [_ Hall]. split; [|done]. split; [by right|done].
Qed.

(** ** Reasoning about member functions *)

Lemma exec_bind {A B : Type} (m : M A) (f : A → M B) s :
  exec (m ≫= f) s = exec (f (value m s)) (exec m s).
Proof. reflexivity. Qed.

Lemma output_bind {A B : Type} (m : M A) (f : A → M B) s :
  output (m ≫= f) s = output m s ++ output (f (value m s)) (exec m s).
Proof. reflexivity. Qed.

Section Obeys.

Context (R : relation (Pipeline Q)) `{!Reflexive R, !Transitive R}.

Lemma obeys_ret {A : Type} (a : A) : obeys R (mret a).
Proof. intros s. apply reflexivity. Qed.

Lemma obeys_gets {A : Type} (f : Pipeline Q → A) : obeys R (gets f).
Proof. intros s. apply reflexivity. Qed.

Lemma obeys_emit (e : Effect) : obeys R (emit e).
Proof. intros s. apply reflexivity. Qed.

Lemma obeys_modify (f : Pipeline Q → Pipeline Q) :
  (∀ s, R s (f s)) → obeys R (modify f).
Proof. intros Hf s. apply Hf. Qed.

Lemma obeys_bind {A B : Type} (m : M A) (f : A → M B) :
  obeys R m → (∀ a, obeys R (f a)) → obeys R (m ≫= f).
Proof.
  intros Hm Hf s. rewrite exec_bind.
  etrans; [apply Hm|apply Hf].
Qed.

Lemma obeys_when (b : bool) (m : M unit) : obeys R m → obeys R (when b m).
Proof. intros Hm. destruct b; [done|]. apply obeys_ret. Qed.

End Obeys.

(** Walks through the code of a member function; what is left are the
    assignments, to be shown to respect the relation. *)
Ltac obeys_walk :=
  repeat match goal with
    | |- obeys _ (mret _) => apply obeys_ret; tc_solve
    | |- obeys _ (gets _) => apply obeys_gets; tc_solve
    | |- obeys _ (emit _) => apply obeys_emit; tc_solve
    | |- obeys _ (_ ≫= _) => apply obeys_bind; [tc_solve| |intros ?]
    | |- obeys _ (when _ _) => apply obeys_when; [tc_solve|]
    | |- obeys _ (if ?b then _ else _) => destruct b
    | |- obeys _ (match ?x with _ => _ end) => destruct x
    | |- obeys _ (new_FuncTimeout _ _) => unfold new_FuncTimeout
    | |- obeys _ (modify _) => apply obeys_modify; intros ?
    end.

#[local] Instance keeps_refl {A : Type} (f : Pipeline Q → A) : Reflexive (keeps f).
Proof. by intros s. Qed.
#[local] Instance keeps_trans {A : Type} (f : Pipeline Q → A) : Transitive (keeps f).
Proof. unfold keeps. intros s1 s2 s3 H1 H2. congruence. Qed.

#[local] Instance same_ids_refl : Reflexive (same_ids (Q:=Q)).
Proof. by intros s p. Qed.
#[local] Instance same_ids_trans : Transitive (same_ids (Q:=Q)).
Proof. intros s1 s2 s3 H1 H2 p. by rewrite H2, H1. Qed.

Lemma upd_query_same_ids q (f : Q → Q) s : same_ids s (upd_query q f s).
Proof. intros p. unfold qid_of, upd_query. simpl. by case_decide. Qed.

Ltac same_ids_walk :=
  obeys_walk; try (by intros ?); try apply upd_query_same_ids.

Lemma setQIDState_same_ids q st : obeys same_ids (setQIDState q st).
Proof. unfold setQIDState. same_ids_walk. Qed.

Lemma decQIDState_same_ids q : obeys same_ids (decQIDState q).
Proof. unfold decQIDState. obeys_walk. apply setQIDState_same_ids. Qed.

Lemma shuntNext_same_ids : obeys same_ids shuntNext.
Proof. unfold shuntNext. same_ids_walk. apply setQIDState_same_ids. Qed.

Lemma timeoutShunt_same_ids q : obeys same_ids (timeoutShunt q).
Proof. unfold timeoutShunt. obeys_walk. apply decQIDState_same_ids. Qed.

Lemma shunt_same_ids q : obeys same_ids (shunt q).
Proof.
  unfold shunt. same_ids_walk;
    first [apply shuntNext_same_ids | apply setQIDState_same_ids].
Qed.

Lemma resolve_round_same_ids (p t : bool) q i : obeys same_ids (resolve_round p t q i).
Proof. unfold resolve_round. same_ids_walk. Qed.

Lemma resolve_loop_same_ids (p t : bool) qlist i : obeys same_ids (resolve_loop p t qlist i).
Proof.
  revert i. induction qlist as [|q qlist IH]; intros i; simpl.
  - apply obeys_ret; tc_solve.
  - apply obeys_bind; [tc_solve|apply resolve_round_same_ids|intros ?; apply IH].
Qed.

Lemma resolve_same_ids qlist (p t : bool) : obeys same_ids (resolve qlist p t).
Proof.
  unfold resolve. apply obeys_bind; [tc_solve| |intros ?].
  - apply resolve_loop_same_ids.
  - apply shuntNext_same_ids.
Qed.

Lemma resolve_query_same_ids (oq : option query_ptr) (p t : bool) :
  obeys same_ids (resolve_query oq p t).
Proof.
  destruct oq; simpl; [apply resolve_same_ids|apply obeys_ret; tc_solve].
Qed.

Lemma resolve_qid_same_ids qid (p t : bool) : obeys same_ids (resolve_qid qid p t).
Proof. unfold resolve_qid. obeys_walk. apply resolve_query_same_ids. Qed.

Lemma reportResults_same_ids qid res : obeys same_ids (reportResults qid res).
Proof.
  unfold reportResults. same_ids_walk;
    first [apply setQIDState_same_ids | apply decQIDState_same_ids].
Qed.

Lemma start_same_ids : obeys same_ids start.
Proof. unfold start. same_ids_walk. apply shuntNext_same_ids. Qed.

Lemma reap_loop_same_ids n : obeys same_ids (reap_loop n).
Proof.
  induction n as [|n IH]; simpl; [apply obeys_ret; tc_solve|].
  same_ids_walk; apply IH.
Qed.

Lemma onTemporaryQueryTimer_same_ids : obeys same_ids onTemporaryQueryTimer.
Proof. unfold onTemporaryQueryTimer. same_ids_walk. apply reap_loop_same_ids. Qed.

Lemma call_Func_same_ids f : obeys same_ids (call_Func f).
Proof.
  destruct f; simpl;
    [apply shunt_same_ids|apply shuntNext_same_ids|apply timeoutShunt_same_ids].
Qed.

Lemma step_same_ids (e : Event Q) : obeys same_ids (step e).
Proof.
  destruct e; simpl.
  - apply start_same_ids.
  - unfold stop. same_ids_walk.
  - unfold addResolver. same_ids_walk.
  - unfold removeResolver. same_ids_walk.
  - apply resolve_same_ids.
  - apply resolve_query_same_ids.
  - apply resolve_qid_same_ids.
  - apply reportResults_same_ids.
  - unfold FuncTimeout_fires. same_ids_walk. apply call_Func_same_ids.
  - same_ids_walk. apply onTemporaryQueryTimer_same_ids.
  - same_ids_walk.
  - same_ids_walk.
Qed.

(** ** The ledger stays well formed *)

#[local] Instance keeps_ledger_wf_refl : Reflexive (keeps_ledger_wf (Q:=Q)).
Proof. intros s H. exact H. Qed.
#[local] Instance keeps_ledger_wf_trans : Transitive (keeps_ledger_wf (Q:=Q)).
Proof. intros s1 s2 s3 H1 H2 H. apply H2, H1, H. Qed.

Lemma ledger_wf_delete (qid : QID) s :
  keeps_ledger_wf s (upd_qids (delete qid) s).
Proof.
  intros Hwf k q. simpl. intros Hk.
  apply lookup_delete_Some in Hk as [_ Hk]. by apply Hwf.
Qed.

Lemma ledger_wf_upd_query q (f : Q → Q) s :
  keeps_ledger_wf s (upd_query q f s).
Proof.
  intros Hwf k p Hk. rewrite (upd_query_same_ids q f s p). by apply Hwf.
Qed.

Lemma ledger_wf_insert q s :
  keeps_ledger_wf s (upd_qids (<[qid_of s q := q]>) s).
Proof.
  intros Hwf k p. simpl. intros Hk.
  apply lookup_insert_Some in Hk as [[<- <-]|[_ Hk]]; [done|by apply Hwf].
Qed.

Ltac ledger_walk :=
  obeys_walk;
  try first [ by intros ? | apply ledger_wf_delete | apply ledger_wf_upd_query ].

Lemma setQIDState_ledger_wf q st : obeys keeps_ledger_wf (setQIDState q st).
Proof. unfold setQIDState. ledger_walk. Qed.

Lemma decQIDState_ledger_wf q : obeys keeps_ledger_wf (decQIDState q).
Proof. unfold decQIDState. ledger_walk. apply setQIDState_ledger_wf. Qed.

Lemma shuntNext_ledger_wf : obeys keeps_ledger_wf shuntNext.
Proof. unfold shuntNext. ledger_walk. apply setQIDState_ledger_wf. Qed.

Lemma timeoutShunt_ledger_wf q : obeys keeps_ledger_wf (timeoutShunt q).
Proof. unfold timeoutShunt. ledger_walk. apply decQIDState_ledger_wf. Qed.

Lemma shunt_ledger_wf q : obeys keeps_ledger_wf (shunt q).
Proof.
  unfold shunt. ledger_walk;
    first [apply shuntNext_ledger_wf | apply setQIDState_ledger_wf].
Qed.

Lemma resolve_round_qids (p t : bool) q i s :
  m_qids (exec (resolve_round p t q i) s) =
  if bool_decide (is_Some (m_qids s !! qid_of s q)) then m_qids s
  else <[qid_of s q := q]> (m_qids s).
Proof.
  unfold resolve_round. run_monad.
  case_bool_decide; simpl; case_bool_decide; simpl; try done;
    destruct p, t; simpl; try done;
    destruct (isActive (m_temporaryQueryTimer s)); done.
Qed.

Lemma resolve_round_queries (p t : bool) q i :
  obeys (keeps queries) (resolve_round p t q i).
Proof. unfold resolve_round. obeys_walk; reflexivity. Qed.

Lemma resolve_round_ledger_wf (p t : bool) q i :
  obeys keeps_ledger_wf (resolve_round p t q i).
Proof.
  intros s Hwf k x.
  unfold qid_of. rewrite (resolve_round_queries p t q i s).
  rewrite resolve_round_qids. case_bool_decide; [apply Hwf|].
  intros Hk. apply lookup_insert_Some in Hk as [[<- <-]|[_ Hk]]; [done|by apply Hwf].
Qed.

Lemma resolve_loop_ledger_wf (p t : bool) qlist i :
  obeys keeps_ledger_wf (resolve_loop p t qlist i).
Proof.
  revert i. induction qlist as [|q qlist IH]; intros i; simpl.
  - apply obeys_ret; tc_solve.
  - apply obeys_bind; [tc_solve|apply resolve_round_ledger_wf|intros ?; apply IH].
Qed.

Lemma resolve_ledger_wf qlist (p t : bool) : obeys keeps_ledger_wf (resolve qlist p t).
Proof.
  unfold resolve. apply obeys_bind; [tc_solve| |intros ?].
  - apply resolve_loop_ledger_wf.
  - apply shuntNext_ledger_wf.
Qed.

Lemma resolve_query_ledger_wf (oq : option query_ptr) (p t : bool) :
  obeys keeps_ledger_wf (resolve_query oq p t).
Proof.
  destruct oq; simpl; [apply resolve_ledger_wf|apply obeys_ret; tc_solve].
Qed.

Lemma reportResults_ledger_wf qid res : obeys keeps_ledger_wf (reportResults qid res).
Proof.
  unfold reportResults. ledger_walk;
    first [apply setQIDState_ledger_wf | apply decQIDState_ledger_wf].
Qed.

Lemma reap_loop_ledger_wf n : obeys keeps_ledger_wf (reap_loop n).
Proof.
  induction n as [|n IH]; simpl; [apply obeys_ret; tc_solve|].
  ledger_walk; apply IH.
Qed.

Lemma step_ledger_wf (e : Event Q) : obeys keeps_ledger_wf (step e).
Proof.
  destruct e; simpl.
  - unfold start. ledger_walk. apply shuntNext_ledger_wf.
  - unfold stop. ledger_walk.
  - unfold addResolver. ledger_walk.
  - unfold removeResolver. ledger_walk.
  - apply resolve_ledger_wf.
  - apply resolve_query_ledger_wf.
  - unfold resolve_qid. ledger_walk. apply resolve_query_ledger_wf.
  - apply reportResults_ledger_wf.
  - unfold FuncTimeout_fires. ledger_walk.
    match goal with |- obeys _ (call_Func ?f) => destruct f end; simpl;
      [apply shunt_ledger_wf|apply shuntNext_ledger_wf|apply timeoutShunt_ledger_wf].
  - unfold onTemporaryQueryTimer. ledger_walk. apply reap_loop_ledger_wf.
  - ledger_walk.
  - ledger_walk.
Qed.

(** In every state the pipeline can reach, a ledger entry is filed under
    the id of its query. *)
Lemma reachable_ledger_wf s : reachable s → ledger_wf s.
Proof.
  induction 1 as [n objs|s e _ IH].
  - intros k q Hk. simpl in Hk. by rewrite lookup_empty in Hk.
  - by apply step_ledger_wf.
Qed.

(** ** The attempt-budget map *)

#[local] Instance shrinks_refl : Reflexive (shrinks (Q:=Q)).
Proof. intros s. split; done. Qed.
#[local] Instance shrinks_trans : Transitive (shrinks (Q:=Q)).
Proof.
  intros s1 s2 s3 [H1 H1'] [H2 H2']. split; [congruence|set_solver].
Qed.

Lemma keeps_budget_shrinks s s' : keeps budget_of s s' → shrinks s s'.
Proof. unfold keeps, budget_of. intros [= H1 H2]. split; [done|by rewrite H2]. Qed.

Lemma shrinks_adds_one s s' : shrinks s s' → adds_one_below_cap s s'.
Proof. intros [H1 H2]. split; [done|by left]. Qed.

Lemma obeys_mono {A : Type} (R R' : relation (Pipeline Q)) (m : M A) :
  (∀ s s', R s s' → R' s s') → obeys R m → obeys R' m.
Proof. intros HR Hm s. apply HR, Hm. Qed.

Lemma obeys_bind_adds_one {A B : Type} (m : M A) (f : A → M B) :
  obeys (keeps budget_of) m →
  (∀ a, obeys adds_one_below_cap (f a)) →
  obeys adds_one_below_cap (m ≫= f).
Proof.
  intros Hm Hf s. rewrite exec_bind.
  specialize (Hm s). specialize (Hf (value m s) (exec m s)).
  unfold keeps, budget_of in Hm. injection Hm as Hcap Hst.
  destruct Hf as [Hc Hd]. rewrite Hcap, Hst in *. by split.
Qed.

Lemma adds_one_budget_ok s s' :
  adds_one_below_cap s s' → budget_ok s → budget_ok s'.
Proof.
  unfold budget_ok. intros [Hcap [Hsub|[Hlt [k Hsub]]]] Hok; rewrite Hcap.
  - apply subseteq_size in Hsub. rewrite !size_dom in Hsub. lia.
  - apply subseteq_size in Hsub.
    rewrite size_union_alt, size_singleton, size_dom in Hsub.
    assert (size (dom (m_qidsState s) ∖ {[k]}) ≤ size (m_qidsState s))%nat.
    { rewrite <- (size_dom (D:=gset string)). apply subseteq_size. set_solver. }
    lia.
Qed.

Lemma setQIDState_qidsState q st s :
  m_qidsState (exec (setQIDState q st) s) =
  if bool_decide (st > 0) then <[qid_of s q := st]> (m_qidsState s)
  else delete (qid_of s q) (m_qidsState s).
Proof.
  unfold setQIDState. run_monad. repeat (case_bool_decide; simpl); done.
Qed.

Lemma setQIDState_cap q st :
  obeys (keeps m_maxConcurrentQueries) (setQIDState q st).
Proof. unfold setQIDState. obeys_walk; reflexivity. Qed.

Lemma setQIDState_shrinks q st s :
  st ≤ 0 ∨ is_Some (m_qidsState s !! qid_of s q) →
  shrinks s (exec (setQIDState q st) s).
Proof.
  intros Hst. split; [apply setQIDState_cap|].
  rewrite setQIDState_qidsState. case_bool_decide.
  - destruct Hst as [?|Hin]; [lia|].
    apply elem_of_dom in Hin. rewrite dom_insert_L. set_solver.
  - rewrite dom_delete_L. set_solver.
Qed.

Lemma decQIDState_exec q s :
  exec (decQIDState q) s =
  match m_qidsState s !! qid_of s q with
  | Some v => exec (setQIDState q (to_int (v - 1))) s
  | None => s
  end.
Proof. unfold decQIDState. run_monad. by destruct (m_qidsState s !! qid_of s q). Qed.

Lemma decQIDState_shrinks q : obeys shrinks (decQIDState q).
Proof.
  intros s. rewrite decQIDState_exec.
  destruct (m_qidsState s !! qid_of s q) eqn:Hq; [|reflexivity].
  apply setQIDState_shrinks. right. by rewrite Hq.
Qed.

Ltac budget_walk :=
  obeys_walk; try reflexivity; try (split; reflexivity).

(** What a dispatch pass does to the state, case by case. *)
Lemma shuntNext_exec s :
  exec shuntNext s =
  if m_running s then
    match m_queries_pending s with
    | [] => s
    | q :: rest =>
        if bool_decide
             (Z.of_nat (size (m_qidsState s)) >= m_maxConcurrentQueries s)
        then s
        else exec (setQIDState q (to_int (Z.of_nat (length (m_resolvers s)))))
               (upd_query q (setCurrentResolver None) (upd_pending (λ _, rest) s))
    end
  else s.
Proof.
  unfold exec, shuntNext, mbind, M_bind, gets. simpl.
  destruct (m_running s); simpl; [|done].
  destruct (m_queries_pending s) as [|q rest]; simpl.
  - by case_bool_decide.
  - by case_bool_decide.
Qed.

Lemma shuntNext_adds_one : obeys adds_one_below_cap shuntNext.
Proof.
  intros s. rewrite shuntNext_exec.
  destruct (m_running s); [|by apply shrinks_adds_one].
  destruct (m_queries_pending s) as [|q rest]; [by apply shrinks_adds_one|].
  case_bool_decide as Hcap; [by apply shrinks_adds_one|].
  split.
  - by rewrite setQIDState_cap.
  - right. split; [lia|]. exists (qid_of s q).
    rewrite setQIDState_qidsState, (upd_query_same_ids q _ _ q). simpl.
    case_bool_decide; [rewrite dom_insert_L|rewrite dom_delete_L]; set_solver.
Qed.

Lemma timeoutShunt_shrinks q : obeys shrinks (timeoutShunt q).
Proof. unfold timeoutShunt. budget_walk. apply decQIDState_shrinks. Qed.

Lemma reportResults_shrinks qid res : obeys shrinks (reportResults qid res).
Proof.
  unfold reportResults. budget_walk;
    first [apply decQIDState_shrinks | intros s; apply setQIDState_shrinks; by left].
Qed.

Ltac adds_one_walk :=
  repeat match goal with
    | |- obeys adds_one_below_cap (_ ≫= _) =>
        apply obeys_bind_adds_one; [budget_walk|intros ?]
    end.

Lemma shunt_adds_one q : obeys adds_one_below_cap (shunt q).
Proof.
  unfold shunt.
  apply obeys_bind_adds_one; [budget_walk|intros running].
  destruct (negb running); [intros s; apply shrinks_adds_one; reflexivity|].
  apply obeys_bind_adds_one; [budget_walk|intros finished].
  apply obeys_bind_adds_one; [budget_walk|intros [r|]].
  - adds_one_walk. apply shuntNext_adds_one.
  - intros s. apply shrinks_adds_one, setQIDState_shrinks. by left.
Qed.

Lemma resolve_round_budget (p t : bool) q i :
  obeys (keeps budget_of) (resolve_round p t q i).
Proof. unfold resolve_round. budget_walk. Qed.

Lemma resolve_loop_budget (p t : bool) qlist i :
  obeys (keeps budget_of) (resolve_loop p t qlist i).
Proof.
  revert i. induction qlist as [|q qlist IH]; intros i; simpl.
  - apply obeys_ret; tc_solve.
  - apply obeys_bind; [tc_solve|apply resolve_round_budget|intros ?; apply IH].
Qed.

Lemma resolve_adds_one qlist (p t : bool) :
  obeys adds_one_below_cap (resolve qlist p t).
Proof.
  unfold resolve. apply obeys_bind_adds_one; [apply resolve_loop_budget|intros _].
  apply shuntNext_adds_one.
Qed.

Lemma resolve_query_adds_one (oq : option query_ptr) (p t : bool) :
  obeys adds_one_below_cap (resolve_query oq p t).
Proof.
  destruct oq; simpl; [apply resolve_adds_one|].
  intros s. apply shrinks_adds_one. reflexivity.
Qed.

Lemma reap_loop_budget n : obeys (keeps budget_of) (reap_loop n).
Proof.
  induction n as [|n IH]; simpl; [apply obeys_ret; tc_solve|].
  budget_walk; apply IH.
Qed.

Lemma call_Func_adds_one f : obeys adds_one_below_cap (call_Func f).
Proof.
  destruct f; simpl; [apply shunt_adds_one|apply shuntNext_adds_one|].
  eapply obeys_mono; [apply shrinks_adds_one|apply timeoutShunt_shrinks].
Qed.

(** Whatever happens to the pipeline, at most one request id gains a budget
    entry, and only when the map held fewer entries than the cap. *)
Lemma step_adds_one (e : Event Q) : obeys adds_one_below_cap (step e).
Proof.
  destruct e; simpl.
  - unfold start. adds_one_walk. apply shuntNext_adds_one.
  - eapply obeys_mono; [apply shrinks_adds_one|]. unfold stop. budget_walk.
  - eapply obeys_mono; [apply shrinks_adds_one|]. unfold addResolver. budget_walk.
  - eapply obeys_mono; [apply shrinks_adds_one|]. unfold removeResolver. budget_walk.
  - apply resolve_adds_one.
  - apply resolve_query_adds_one.
  - unfold resolve_qid. apply obeys_bind_adds_one; [budget_walk|intros ?].
    apply resolve_query_adds_one.
  - eapply obeys_mono; [apply shrinks_adds_one|apply reportResults_shrinks].
  - unfold FuncTimeout_fires. apply obeys_bind_adds_one; [budget_walk|intros [ft|]].
    + apply obeys_bind_adds_one; [budget_walk|intros ?]. apply call_Func_adds_one.
    + intros s. apply shrinks_adds_one. reflexivity.
  - eapply obeys_mono; [apply shrinks_adds_one|].
    eapply obeys_mono; [apply keeps_budget_shrinks|].
    unfold onTemporaryQueryTimer. budget_walk. apply reap_loop_budget.
  - eapply obeys_mono; [apply shrinks_adds_one|]. budget_walk.
  - eapply obeys_mono; [apply shrinks_adds_one|]. budget_walk.
Qed.

Lemma Pipeline_new_cap (n : Z) (objs : query_ptr → QueryObj Q) :
  4 ≤ m_maxConcurrentQueries (Pipeline_new n objs) ≤ 16.
Proof.
  simpl. unfold qBound, DEFAULT_CONCURRENT_QUERIES, MAX_CONCURRENT_QUERIES. lia.
Qed.

Lemma reachable_budget_ok s : reachable s → budget_ok s.
Proof.
  induction 1 as [n objs|s e _ IH].
  - pose proof (Pipeline_new_cap n objs). unfold budget_ok. simpl in *.
    rewrite map_size_empty. lia.
  - eapply adds_one_budget_ok; [apply step_adds_one|done].
Qed.

(** A dispatch pass that finds the budget map full leaves the pipeline as
    it is. *)
Lemma shuntNext_at_cap s :
  Z.of_nat (size (m_qidsState s)) >= m_maxConcurrentQueries s →
  m_queries_pending s ≠ [] →
  exec shuntNext s = s.
Proof.
  intros Hcap Hp. rewrite shuntNext_exec.
  destruct (m_running s); [|done].
  destruct (m_queries_pending s); [done|].
  by rewrite bool_decide_eq_true_2.
Qed.

(** [incQIDState] gives a budget of 1 to a request id that has none,
    whatever the size of the map. *)
Lemma incQIDState_absent q s :
  m_qidsState s !! qid_of s q = None →
  m_qidsState (exec (incQIDState q) s) = <[qid_of s q := 1]> (m_qidsState s) ∧
  size (m_qidsState (exec (incQIDState q) s)) = S (size (m_qidsState s)).
Proof.
  intros Hq. unfold incQIDState. run_monad. rewrite Hq.
  split; [done|]. by apply map_size_insert_None.
Qed.

(** ** The idle signal *)

Lemma never_idle_ret {A : Type} (a : A) : never_idle (mret a).
Proof. intros s. apply not_elem_of_nil. Qed.

Lemma never_idle_gets {A : Type} (f : Pipeline Q → A) : never_idle (gets f).
Proof. intros s. apply not_elem_of_nil. Qed.

Lemma never_idle_modify (f : Pipeline Q → Pipeline Q) : never_idle (modify f).
Proof. intros s. apply not_elem_of_nil. Qed.

Lemma never_idle_emit (e : Effect) : e ≠ idle → never_idle (emit e).
Proof. intros He s Hin. apply list_elem_of_singleton in Hin. congruence. Qed.

Lemma never_idle_bind {A B : Type} (m : M A) (f : A → M B) :
  never_idle m → (∀ a, never_idle (f a)) → never_idle (m ≫= f).
Proof.
  intros Hm Hf s. rewrite output_bind, elem_of_app.
  intros [Hin|Hin]; [by apply (Hm s)|by apply (Hf _ _ Hin)].
Qed.

Lemma never_idle_when (b : bool) (m : M unit) : never_idle m → never_idle (when b m).
Proof. intros Hm. destruct b; [done|]. apply never_idle_ret. Qed.

Ltac quiet_walk :=
  repeat match goal with
    | |- never_idle (mret _) => apply never_idle_ret
    | |- never_idle (gets _) => apply never_idle_gets
    | |- never_idle (modify _) => apply never_idle_modify
    | |- never_idle (emit _) => apply never_idle_emit; discriminate
    | |- never_idle (_ ≫= _) => apply never_idle_bind; [|intros ?]
    | |- never_idle (when _ _) => apply never_idle_when
    | |- never_idle (if ?b then _ else _) => destruct b
    | |- never_idle (match ?x with _ => _ end) => destruct x
    | |- never_idle (new_FuncTimeout _ _) => unfold new_FuncTimeout
    end.

Lemma never_idle_sound {A : Type} (m : M A) :
  never_idle m → idle_only_when_empty m.
Proof. intros Hm s Hin. by apply Hm in Hin. Qed.

Lemma idle_only_bind {A B : Type} (m : M A) (f : A → M B) :
  never_idle m → (∀ a, idle_only_when_empty (f a)) →
  idle_only_when_empty (m ≫= f).
Proof.
  intros Hm Hf s. rewrite output_bind, elem_of_app, exec_bind.
  intros [Hin|Hin]; [by apply Hm in Hin|by apply Hf].
Qed.

Ltac idle_walk :=
  repeat match goal with
    | |- idle_only_when_empty (_ ≫= _) =>
        apply idle_only_bind; [quiet_walk|intros ?]
    end.

Lemma setQIDState_never_idle q st : never_idle (setQIDState q st).
Proof. unfold setQIDState. quiet_walk. Qed.

Lemma decQIDState_never_idle q : never_idle (decQIDState q).
Proof. unfold decQIDState. quiet_walk. apply setQIDState_never_idle. Qed.

Lemma setQIDState_output q st s : output (setQIDState q st) s = [].
Proof.
  unfold setQIDState. run_monad.
  repeat (case_bool_decide; simpl); reflexivity.
Qed.

(** What a dispatch pass emits, case by case. *)
Lemma shuntNext_output s :
  output shuntNext s =
  if m_running s && bool_decide (m_queries_pending s = [])
     && bool_decide (m_qidsState s = ∅)
  then [idle] else [].
Proof.
  unfold output, shuntNext, mbind, M_bind, gets. simpl.
  destruct (m_running s); simpl; [|done].
  destruct (m_queries_pending s) as [|q rest]; simpl.
  - by case_bool_decide.
  - case_bool_decide; simpl; [done|].
    exact (setQIDState_output q
      (to_int (Z.of_nat (length (m_resolvers s))))
      (upd_query q (setCurrentResolver None) (upd_pending (λ _, rest) s))).
Qed.

Lemma shuntNext_idle_iff s :
  idle ∈ output shuntNext s ↔
  m_running s = true ∧ m_queries_pending s = [] ∧ m_qidsState s = ∅.
Proof.
  rewrite shuntNext_output.
  destruct (m_running s); simpl.
  - repeat case_bool_decide; simpl; split;
      try (intros Hin; by apply elem_of_nil in Hin);
      try (intros (_ & ? & ?); done).
    + done.
    + intros _. apply list_elem_of_singleton. done.
  - split; [intros Hin; by apply elem_of_nil in Hin|intros (? & _); done].
Qed.

Lemma shuntNext_idle_only : idle_only_when_empty shuntNext.
Proof.
  intros s Hin. apply shuntNext_idle_iff in Hin as Hs.
  destruct Hs as (Hr & Hp & Hb).
  rewrite shuntNext_exec, Hr, Hp. done.
Qed.

Lemma shunt_idle_only q : idle_only_when_empty (shunt q).
Proof.
  unfold shunt. idle_walk.
  match goal with |- idle_only_when_empty (if ?b then _ else _) => destruct b end;
    [apply never_idle_sound; quiet_walk|].
  idle_walk.
  match goal with |- idle_only_when_empty (match ?x with _ => _ end) => destruct x end.
  - idle_walk. apply shuntNext_idle_only.
  - apply never_idle_sound, setQIDState_never_idle.
Qed.

Lemma resolve_loop_never_idle (p t : bool) qlist i :
  never_idle (resolve_loop p t qlist i).
Proof.
  revert i. induction qlist as [|q qlist IH]; intros i; simpl; [quiet_walk|].
  apply never_idle_bind; [|intros ?; apply IH].
  unfold resolve_round. quiet_walk.
Qed.

Lemma resolve_idle_only qlist (p t : bool) : idle_only_when_empty (resolve qlist p t).
Proof.
  unfold resolve. apply idle_only_bind; [apply resolve_loop_never_idle|intros _].
  apply shuntNext_idle_only.
Qed.

Lemma resolve_query_idle_only (oq : option query_ptr) (p t : bool) :
  idle_only_when_empty (resolve_query oq p t).
Proof.
  destruct oq; simpl; [apply resolve_idle_only|].
  apply never_idle_sound. quiet_walk.
Qed.

Lemma reap_loop_never_idle n : never_idle (reap_loop n).
Proof. induction n as [|n IH]; simpl; quiet_walk; apply IH. Qed.

Lemma step_idle_only (e : Event Q) : idle_only_when_empty (step e).
Proof.
  destruct e; simpl.
  - unfold start. idle_walk. apply shuntNext_idle_only.
  - apply never_idle_sound. unfold stop. quiet_walk.
  - apply never_idle_sound. unfold addResolver. quiet_walk.
  - apply never_idle_sound. unfold removeResolver. quiet_walk.
  - apply resolve_idle_only.
  - apply resolve_query_idle_only.
  - unfold resolve_qid. idle_walk. apply resolve_query_idle_only.
  - apply never_idle_sound. unfold reportResults. quiet_walk;
      first [apply setQIDState_never_idle|apply decQIDState_never_idle].
  - unfold FuncTimeout_fires. idle_walk.
    match goal with |- idle_only_when_empty (match ?x with _ => _ end) => destruct x end;
      [|apply never_idle_sound; quiet_walk].
    idle_walk.
    match goal with |- idle_only_when_empty (call_Func ?f) => destruct f end; simpl.
    + apply shunt_idle_only.
    + apply shuntNext_idle_only.
    + apply never_idle_sound. unfold timeoutShunt. quiet_walk.
      apply decQIDState_never_idle.
  - apply never_idle_sound. unfold onTemporaryQueryTimer. quiet_walk.
    apply reap_loop_never_idle.
  - apply never_idle_sound. quiet_walk.
  - apply never_idle_sound. quiet_walk.
Qed.

(** ** Result delivery *)


Lemma reportResults_exec qid res s :
  exec (reportResults qid res) s =
  if m_running s then
    match m_qids s !! qid with
    | None => s
    | Some q =>
        if bool_decide (res ≠ []) then
          if early_success q res s
          then exec (setQIDState q 0) (results_added q res s)
          else exec (decQIDState q) (results_added q res s)
        else exec (decQIDState q) s
    end
  else s.
Proof.
  unfold exec, reportResults, mbind, M_bind, gets. simpl.
  destruct (m_running s); simpl; [|done].
  destruct (m_qids s !! qid) as [q|]; simpl; [|done].
  case_bool_decide; simpl; [|done].
  unfold early_success, results_added. simpl.
  rewrite decide_True by done. simpl.
  by destruct (playable _ && negb _).
Qed.

Lemma silent_bind {A B : Type} (m : M A) (f : A → M B) :
  silent m → (∀ a, silent (f a)) → silent (m ≫= f).
Proof. intros Hm Hf s. by rewrite output_bind, Hm, Hf. Qed.

Ltac silent_walk :=
  repeat match goal with
    | |- silent (mret _) => by intros ?
    | |- silent (gets _) => by intros ?
    | |- silent (modify _) => by intros ?
    | |- silent (_ ≫= _) => apply silent_bind; [|intros ?]
    | |- silent (when ?b _) => destruct b; simpl
    | |- silent (if ?b then _ else _) => destruct b
    | |- silent (match ?x with _ => _ end) => destruct x
    | |- silent (new_FuncTimeout _ _) => unfold new_FuncTimeout
    end.

Lemma decQIDState_silent q : silent (decQIDState q).
Proof. unfold decQIDState. silent_walk. intros s. apply setQIDState_output. Qed.

Lemma reportResults_output qid res s :
  output (reportResults qid res) s =
  if m_running s then
    match m_qids s !! qid with
    | None => [Debug (dbg_result_too_late qid)]
    | Some q => []
    end
  else [].
Proof.
  unfold reportResults. rewrite output_bind.
  change (value (gets m_running) s) with (m_running s).
  change (exec (gets m_running) s) with s.
  destruct (m_running s); simpl; [|done].
  rewrite output_bind.
  change (value (gets (λ s0, m_qids s0 !! qid)) s) with (m_qids s !! qid).
  change (exec (gets (λ s0, m_qids s0 !! qid)) s) with s.
  destruct (m_qids s !! qid) as [q|]; simpl; [|done].
  match goal with |- output ?m _ = [] => cut (silent m); [intros Hs; apply Hs|] end.
  silent_walk; first [apply decQIDState_silent|intros ?; apply setQIDState_output].
Qed.

Lemma setQIDState_qidsTimeout q st s :
  m_qidsTimeout (exec (setQIDState q st) s) = delete (qid_of s q) (m_qidsTimeout s).
Proof.
  unfold setQIDState. run_monad.
  repeat (case_bool_decide; simpl); try done;
    symmetry; apply delete_id; by apply eq_None_not_Some.
Qed.

Lemma setQIDState_func_timeouts q st s :
  func_timeouts (exec (setQIDState q st) s) =
  func_timeouts s ++
    [MkFuncTimeout 0 (if bool_decide (st > 0) then bind_shunt q else bind_shuntNext)].
Proof.
  unfold setQIDState. run_monad. repeat (case_bool_decide; simpl); done.
Qed.

Lemma setQIDState_qids q st s :
  m_qids (exec (setQIDState q st) s) =
  if bool_decide (st > 0) then m_qids s
  else if bool_decide (q ∈ m_queries_temporary s) then m_qids s
       else delete (qid_of s q) (m_qids s).
Proof.
  unfold setQIDState. run_monad. repeat (case_bool_decide; simpl); done.
Qed.

Lemma setQIDState_queries q st s :
  queries (exec (setQIDState q st) s) =
  if bool_decide (st > 0) then queries s
  else queries (upd_query q onResolvingFinished s).
Proof.
  unfold setQIDState. run_monad. repeat (case_bool_decide; simpl); done.
Qed.

Lemma results_added_same_ids q res s p : qid_of (results_added q res s) p = qid_of s p.
Proof. apply (upd_query_same_ids q (addResults res) s p). Qed.

(** C3: on a running pipeline, for a request id of the ledger (filed under
    the id of its query, as in every reachable state, see
    [reachable_ledger_wf]), a non-empty delivery after which the request is
    playable and is not a full-text query finalizes the request at once: its budget entry is removed
    whatever the budget was (it is not decremented), its timeout flag is
    gone, the request is told that resolving finished, no resolver is
    called and the only thing scheduled is a dispatch pass (no further
    attempt for this request). *)
Theorem reportResults_early_success_finalizes qid res q s :
  m_running s = true →
  m_qids s !! qid = Some q →
  qid_of s q = qid →
  res ≠ [] →
  playable (addResults res (self (queries s q))) = true →
  isFullTextQuery (addResults res (self (queries s q))) = false →
  exec (reportResults qid res) s = exec (setQIDState q 0) (results_added q res s) ∧
  m_qidsState (exec (reportResults qid res) s) = delete qid (m_qidsState s) ∧
  m_qidsState (exec (reportResults qid res) s) !! qid = None ∧
  m_qidsTimeout (exec (reportResults qid res) s) !! qid = None ∧
  func_timeouts (exec (reportResults qid res) s) =
    func_timeouts s ++ [MkFuncTimeout 0 bind_shuntNext] ∧
  output (reportResults qid res) s = [] ∧
  self (queries (exec (reportResults qid res) s) q) =
    onResolvingFinished (addResults res (self (queries s q))).
Proof.
  intros Hrun Hq Hid Hres Hplay Hfull.
  rewrite reportResults_exec, reportResults_output, Hrun, Hq.
  rewrite bool_decide_eq_true_2 by done.
  unfold early_success. rewrite Hplay, Hfull. cbn [andb negb].
  rewrite setQIDState_qidsState, setQIDState_qidsTimeout,
    setQIDState_func_timeouts, setQIDState_queries, results_added_same_ids, Hid.
  rewrite bool_decide_eq_false_2 by lia.
  rewrite !lookup_delete_eq. cbn. rewrite !decide_True by done. done.
Qed.

(** C4: a delivery for a request id the ledger does not hold leaves the
    pipeline exactly as it was, however often it is repeated and whatever
    it delivers; a running pipeline writes one debug line for it. *)
Theorem reportResults_unknown_id_is_dropped qid s :
  m_qids s !! qid = None →
  (∀ res, exec (reportResults qid res) s = s ∧
          output (reportResults qid res) s =
            if m_running s then [Debug (dbg_result_too_late qid)] else []) ∧
  (∀ deliveries : list (list result_ptr),
     foldl (λ s' res, exec (reportResults qid res) s') s deliveries = s).
Proof.
  intros Hq.
  assert (∀ res, exec (reportResults qid res) s = s) as Hexec.
  { intros res. rewrite reportResults_exec, Hq. by destruct (m_running s). }
  split.
  - intros res. split; [done|].
    rewrite reportResults_output, Hq. done.
  - induction deliveries as [|res deliveries IH]; simpl; [done|].
    by rewrite Hexec.
Qed.

(** Once a request that is not temporary is finalized, the ledger no longer
    holds its id. *)
Lemma setQIDState_zero_evicts q s :
  q ∉ m_queries_temporary s →
  m_qids (exec (setQIDState q 0) s) !! qid_of s q = None.
Proof.
  intros Htemp. rewrite setQIDState_qids. simpl.
  rewrite bool_decide_eq_false_2 by done. apply lookup_delete_eq.
Qed.

Lemma decQIDState_qidsTimeout q s :
  m_qidsTimeout (exec (decQIDState q) s) =
  if bool_decide (is_Some (m_qidsState s !! qid_of s q))
  then delete (qid_of s q) (m_qidsTimeout s)
  else m_qidsTimeout s.
Proof.
  rewrite decQIDState_exec.
  destruct (m_qidsState s !! qid_of s q) eqn:Hq.
  - rewrite bool_decide_eq_true_2 by done. apply setQIDState_qidsTimeout.
  - rewrite bool_decide_eq_false_2; [done|]. by intros [? ?].
Qed.

(** Whatever ids the query objects answer: on a running pipeline, for a
    request id of the ledger, a delivery clears the timeout flag of the request whenever the
    request holds a budget entry or the delivery finalizes it at once; a
    delivery for a request without a budget entry that does not finalize
    it returns from [decQIDState] before the flag is touched, and leaves
    every flag as it was. *)
Theorem reportResults_timeout_flag qid res q s :
  m_running s = true →
  m_qids s !! qid = Some q →
  qid_of s q = qid →
  (is_Some (m_qidsState s !! qid) ∨ (res ≠ [] ∧ early_success q res s = true) →
   m_qidsTimeout (exec (reportResults qid res) s) !! qid = None) ∧
  (m_qidsState s !! qid = None → res = [] ∨ early_success q res s = false →
   m_qidsTimeout (exec (reportResults qid res) s) = m_qidsTimeout s).
Proof.
  intros Hrun Hq Hid.
  rewrite reportResults_exec, Hrun, Hq. split.
  - intros Hcase. case_bool_decide as Hres.
    + destruct (early_success q res s) eqn:Hearly.
      * rewrite setQIDState_qidsTimeout, results_added_same_ids, Hid.
        apply lookup_delete_eq.
      * destruct Hcase as [Hb|[_ ?]]; [|done].
        rewrite decQIDState_qidsTimeout, results_added_same_ids, Hid.
        change (m_qidsState (results_added q res s)) with (m_qidsState s).
        rewrite bool_decide_eq_true_2 by done. apply lookup_delete_eq.
    + destruct Hcase as [Hb|[? _]]; [|done].
      rewrite decQIDState_qidsTimeout, Hid.
      rewrite bool_decide_eq_true_2 by done. apply lookup_delete_eq.
  - intros Hb Hcase.
    assert (¬ is_Some (m_qidsState s !! qid)) as Hno.
    { rewrite Hb. by intros [? ?]. }
    case_bool_decide as Hres.
    + destruct Hcase as [->|Hearly]; [done|]. rewrite Hearly.
      rewrite decQIDState_qidsTimeout, results_added_same_ids, Hid.
      change (m_qidsState (results_added q res s)) with (m_qidsState s).
      by rewrite bool_decide_eq_false_2.
    + rewrite decQIDState_qidsTimeout, Hid. by rewrite bool_decide_eq_false_2.
Qed.

(** ** Submission *)

Lemma resolve_round_value (p t : bool) q i s :
  value (resolve_round p t q i) s =
  if bool_decide (q ∈ m_queries_pending s) then i
  else if p then S i else i.
Proof.
  unfold resolve_round. run_monad.
  repeat (case_bool_decide; simpl); try done; destruct p, t; simpl; try done.
Qed.

Lemma resolve_round_pending (p t : bool) q i s :
  m_queries_pending (exec (resolve_round p t q i) s) =
  if bool_decide (q ∈ m_queries_pending s) then m_queries_pending s
  else if p then QList_insert i q (m_queries_pending s)
       else m_queries_pending s ++ [q].
Proof.
  unfold resolve_round. run_monad.
  repeat (case_bool_decide; simpl); try done; destruct p, t; simpl; try done;
    destruct (isActive (m_temporaryQueryTimer s)); done.
Qed.

Lemma resolve_round_temporary (p t : bool) q i s :
  m_queries_temporary (exec (resolve_round p t q i) s) =
  if bool_decide (q ∈ m_queries_pending s) then m_queries_temporary s
  else if t then m_queries_temporary s ++ [q] else m_queries_temporary s.
Proof.
  unfold resolve_round. run_monad.
  repeat (case_bool_decide; simpl); try done; destruct p, t; simpl; try done;
    destruct (isActive (m_temporaryQueryTimer s)); done.
Qed.

Lemma resolve_round_timer (p t : bool) q i s :
  m_temporaryQueryTimer (exec (resolve_round p t q i) s) =
  if bool_decide (q ∈ m_queries_pending s) then m_temporaryQueryTimer s
  else if t then QTimer_start (m_temporaryQueryTimer s) else m_temporaryQueryTimer s.
Proof.
  unfold resolve_round. run_monad.
  repeat (case_bool_decide; simpl); try done; destruct p, t; simpl; try done;
    destruct (isActive (m_temporaryQueryTimer s)); done.
Qed.

Lemma newly_inserted_proper (l1 l2 batch : list query_ptr) :
  (∀ x, x ∈ l1 ↔ x ∈ l2) → newly_inserted l1 batch = newly_inserted l2 batch.
Proof.
  revert l1 l2. induction batch as [|q batch IH]; intros l1 l2 Heq; simpl; [done|].
  rewrite (bool_decide_ext (q ∈ l1) (q ∈ l2)) by apply Heq.
  case_bool_decide; [by apply IH|].
  f_equal. apply IH. intros x. rewrite !elem_of_cons. by rewrite Heq.
Qed.

Lemma newly_inserted_elem (queued batch : list query_ptr) (x : query_ptr) :
  x ∈ newly_inserted queued batch ↔ x ∈ batch ∧ x ∉ queued.
Proof.
  revert queued. induction batch as [|q batch IH]; intros queued; simpl.
  - split; [intros H; by apply elem_of_nil in H|intros [H _]; by apply elem_of_nil in H].
  - case_bool_decide as Hq.
    + rewrite IH, elem_of_cons. split; [tauto|].
      intros [[->|?] ?]; [done|tauto].
    + rewrite !elem_of_cons, IH, elem_of_cons. split.
      * intros [->|[? ?]]; [tauto|]. tauto.
      * intros [[->|?] ?]; [tauto|].
        destruct (decide (x = q)); [tauto|]. right. tauto.
Qed.

Lemma newly_inserted_NoDup (queued batch : list query_ptr) :
  NoDup (newly_inserted queued batch).
Proof.
  revert queued. induction batch as [|q batch IH]; intros queued; simpl.
  - constructor.
  - case_bool_decide; [apply IH|].
    constructor; [|apply IH].
    rewrite newly_inserted_elem, elem_of_cons. tauto.
Qed.

Lemma newly_inserted_sublist (queued batch : list query_ptr) :
  sublist (newly_inserted queued batch) batch.
Proof.
  revert queued. induction batch as [|q batch IH]; intros queued; simpl.
  - constructor.
  - case_bool_decide; [apply sublist_cons, IH|apply sublist_skip, IH].
Qed.

Lemma newly_inserted_all_queued (queued batch : list query_ptr) :
  (∀ x, x ∈ batch → x ∈ queued) → newly_inserted queued batch = [].
Proof.
  intros Hall. induction batch as [|q batch IH]; simpl; [done|].
  rewrite bool_decide_eq_true_2 by (apply Hall; left).
  apply IH. intros x Hx. apply Hall. by right.
Qed.

Lemma QList_insert_split {A : Type} (front back : list A) (v : A) :
  QList_insert (length front) v (front ++ back) = (front ++ [v]) ++ back.
Proof.
  unfold QList_insert. rewrite take_app_length, drop_app_length.
  by rewrite <- app_assoc.
Qed.

Lemma QTimer_start_start (t : QTimer) : QTimer_start (QTimer_start t) = QTimer_start t.
Proof. reflexivity. Qed.

Lemma timer_after_cons (tq : bool) (q : query_ptr) (fresh : list query_ptr) (t : QTimer) :
  timer_after tq fresh (if tq then QTimer_start t else t) = timer_after tq (q :: fresh) t.
Proof.
  unfold timer_after. destruct tq; cbn [andb]; [|done].
  rewrite (bool_decide_eq_true_2 (q :: fresh ≠ [])) by done.
  by case_bool_decide.
Qed.

(** The loop of a prioritized submission, entered with [i] insertions made:
    the new requests go, in batch order, right after the first [i] entries
    of the queue. *)
Lemma resolve_loop_prioritized (tq : bool) qlist :
  ∀ (front back : list query_ptr) s,
    m_queries_pending s = front ++ back →
    m_queries_pending (exec (resolve_loop true tq qlist (length front)) s) =
      front ++ newly_inserted (m_queries_pending s) qlist ++ back ∧
    m_queries_temporary (exec (resolve_loop true tq qlist (length front)) s) =
      m_queries_temporary s ++
        (if tq then newly_inserted (m_queries_pending s) qlist else []) ∧
    m_temporaryQueryTimer (exec (resolve_loop true tq qlist (length front)) s) =
      timer_after tq (newly_inserted (m_queries_pending s) qlist)
        (m_temporaryQueryTimer s).
Proof.
  induction qlist as [|q qlist IH]; intros front back s Hs.
  - cbn [resolve_loop newly_inserted]. change (exec (mret ()) s) with s.
    unfold timer_after. rewrite Hs.
    destruct tq; cbn [andb app]; rewrite ?app_nil_r;
      repeat split; try done; by case_bool_decide.
  - cbn [resolve_loop newly_inserted]. rewrite exec_bind, resolve_round_value.
    pose proof (resolve_round_pending true tq q (length front) s) as Hp.
    pose proof (resolve_round_temporary true tq q (length front) s) as Ht.
    pose proof (resolve_round_timer true tq q (length front) s) as Hm.
    case_bool_decide as Hq.
    + destruct (IH front back _ (eq_trans Hp Hs)) as (-> & -> & ->).
      by rewrite Hp, Ht, Hm.
    + rewrite Hs, QList_insert_split in Hp.
      replace (S (length front)) with (length (front ++ [q]))
        by (rewrite length_app; simpl; lia).
      destruct (IH (front ++ [q]) back _ Hp) as (-> & -> & ->).
      rewrite Hp, Ht, Hm.
      rewrite (newly_inserted_proper ((front ++ [q]) ++ back)
                 (q :: m_queries_pending s) qlist).
      2:{ intros x. rewrite Hs. set_solver. }
      split; [by rewrite <- !app_assoc|]. split.
      * destruct tq; [by rewrite <- app_assoc|done].
      * apply timer_after_cons.
Qed.

(** The loop of a submission that is not prioritized: the new requests go,
    in batch order, to the back of the queue. *)
Lemma resolve_loop_appended (tq : bool) qlist :
  ∀ (i : nat) s,
    m_queries_pending (exec (resolve_loop false tq qlist i) s) =
      m_queries_pending s ++ newly_inserted (m_queries_pending s) qlist ∧
    m_queries_temporary (exec (resolve_loop false tq qlist i) s) =
      m_queries_temporary s ++
        (if tq then newly_inserted (m_queries_pending s) qlist else []) ∧
    m_temporaryQueryTimer (exec (resolve_loop false tq qlist i) s) =
      timer_after tq (newly_inserted (m_queries_pending s) qlist)
        (m_temporaryQueryTimer s).
Proof.
  induction qlist as [|q qlist IH]; intros i s.
  - cbn [resolve_loop newly_inserted]. change (exec (mret ()) s) with s.
    unfold timer_after.
    destruct tq; cbn [andb app]; rewrite ?app_nil_r;
      repeat split; try done; by case_bool_decide.
  - cbn [resolve_loop newly_inserted]. rewrite exec_bind, resolve_round_value.
    pose proof (resolve_round_pending false tq q i s) as Hp.
    pose proof (resolve_round_temporary false tq q i s) as Ht.
    pose proof (resolve_round_timer false tq q i s) as Hm.
    case_bool_decide as Hq.
    + destruct (IH i (exec (resolve_round false tq q i) s)) as (-> & -> & ->).
      by rewrite Hp, Ht, Hm.
    + destruct (IH i (exec (resolve_round false tq q i) s)) as (-> & -> & ->).
      rewrite Hp, Ht, Hm.
      rewrite (newly_inserted_proper (m_queries_pending s ++ [q])
                 (q :: m_queries_pending s) qlist) by set_solver.
      split; [by rewrite <- !app_assoc|]. split.
      * destruct tq; [by rewrite <- app_assoc|done].
      * apply timer_after_cons.
Qed.

Lemma resolve_loop_queue (p tq : bool) qlist s :
  m_queries_pending (exec (resolve_loop p tq qlist 0) s) =
    queue_after p qlist (m_queries_pending s) ∧
  m_queries_temporary (exec (resolve_loop p tq qlist 0) s) =
    m_queries_temporary s ++
      (if tq then newly_inserted (m_queries_pending s) qlist else []) ∧
  m_temporaryQueryTimer (exec (resolve_loop p tq qlist 0) s) =
    timer_after tq (newly_inserted (m_queries_pending s) qlist)
      (m_temporaryQueryTimer s).
Proof.
  unfold queue_after. destruct p.
  - apply (resolve_loop_prioritized tq qlist [] (m_queries_pending s) s). done.
  - apply resolve_loop_appended.
Qed.

Lemma resolve_loop_dispatch_view (p tq : bool) qlist i :
  obeys (keeps dispatch_view) (resolve_loop p tq qlist i).
Proof.
  revert i. induction qlist as [|q qlist IH]; intros i; simpl.
  - apply obeys_ret; tc_solve.
  - apply obeys_bind; [tc_solve| |intros ?; apply IH].
    unfold resolve_round. obeys_walk; reflexivity.
Qed.

Lemma setQIDState_pending q st : obeys (keeps m_queries_pending) (setQIDState q st).
Proof. unfold setQIDState. obeys_walk; reflexivity. Qed.

Lemma setQIDState_reaper_view q st : obeys (keeps reaper_view) (setQIDState q st).
Proof. unfold setQIDState. obeys_walk; reflexivity. Qed.

Lemma shuntNext_reaper_view : obeys (keeps reaper_view) shuntNext.
Proof. unfold shuntNext. obeys_walk; try reflexivity. apply setQIDState_reaper_view. Qed.

Lemma shuntNext_pending s :
  m_queries_pending (exec shuntNext s) =
  if dispatches s then tail (m_queries_pending s) else m_queries_pending s.
Proof.
  rewrite shuntNext_exec. unfold dispatches.
  destruct (m_running s); simpl; [|done].
  destruct (m_queries_pending s) as [|q rest] eqn:Hp; simpl.
  - rewrite Hp. by case_bool_decide.
  - repeat case_bool_decide; try lia; [done|].
    by rewrite setQIDState_pending.
Qed.

Lemma resolve_pending (p tq : bool) qlist s :
  m_queries_pending (exec (resolve qlist p tq) s) =
  if dispatches s then tail (queue_after p qlist (m_queries_pending s))
  else queue_after p qlist (m_queries_pending s).
Proof.
  unfold resolve. rewrite exec_bind, shuntNext_pending.
  destruct (resolve_loop_queue p tq qlist s) as (-> & _ & _).
  pose proof (resolve_loop_dispatch_view p tq qlist 0 s) as Hv.
  unfold keeps, dispatch_view in Hv. injection Hv as Hr Hc Hb _.
  unfold dispatches. by rewrite Hr, Hc, Hb.
Qed.

(** C5, as the code has it: the loop of a submission puts the requests of
    the batch that were not queued yet, each once and in batch order, in
    front of everything that was pending when the submission is
    prioritized, and behind everything that was pending when it is not.
    The dispatch pass that ends the submission then takes the head of that
    queue if the pipeline runs and a budget slot is free, and leaves the
    queue alone otherwise. *)
Theorem resolve_queue_order qlist (prioritized temporaryQuery : bool) s :
  m_queries_pending (exec (resolve_loop prioritized temporaryQuery qlist 0) s) =
    (if prioritized
     then newly_inserted (m_queries_pending s) qlist ++ m_queries_pending s
     else m_queries_pending s ++ newly_inserted (m_queries_pending s) qlist) ∧
  m_queries_pending (exec (resolve qlist prioritized temporaryQuery) s) =
    (if dispatches s
     then tail (queue_after prioritized qlist (m_queries_pending s))
     else queue_after prioritized qlist (m_queries_pending s)) ∧
  NoDup (newly_inserted (m_queries_pending s) qlist) ∧
  sublist (newly_inserted (m_queries_pending s) qlist) qlist ∧
  (∀ q, q ∈ newly_inserted (m_queries_pending s) qlist ↔
        q ∈ qlist ∧ q ∉ m_queries_pending s).
Proof.
  split; [apply resolve_loop_queue|].
  split; [apply resolve_pending|].
  split; [apply newly_inserted_NoDup|].
  split; [apply newly_inserted_sublist|].
  intros q. apply newly_inserted_elem.
Qed.

Lemma queue_after_queued (p : bool) (qlist pending : list query_ptr) :
  (∀ x, x ∈ qlist → x ∈ pending) → queue_after p qlist pending = pending.
Proof.
  intros Hall. unfold queue_after.
  rewrite newly_inserted_all_queued by done.
  destruct p; [done|apply app_nil_r].
Qed.

Lemma queue_after_holds_batch (p : bool) (qlist pending : list query_ptr) (x : query_ptr) :
  x ∈ qlist → x ∈ queue_after p qlist pending.
Proof.
  intros Hx. unfold queue_after.
  destruct (decide (x ∈ pending)) as [Hin|Hin].
  - destruct p; set_solver.
  - assert (x ∈ newly_inserted pending qlist) by by apply newly_inserted_elem.
    destruct p; set_solver.
Qed.

Lemma queue_after_idemp (p : bool) (qlist pending : list query_ptr) :
  queue_after p qlist (queue_after p qlist pending) = queue_after p qlist pending.
Proof. apply queue_after_queued. intros x. apply queue_after_holds_batch. Qed.

Lemma resolve_not_running qlist (p tq : bool) s :
  m_running s = false →
  exec (resolve qlist p tq) s = exec (resolve_loop p tq qlist 0) s.
Proof.
  intros Hr. unfold resolve. rewrite exec_bind, shuntNext_exec.
  pose proof (resolve_loop_dispatch_view p tq qlist 0 s) as Hv.
  unfold keeps, dispatch_view in Hv. injection Hv as Hr' _ _ _.
  by rewrite Hr', Hr.
Qed.

(** C6, as the code has it: the loop of a submission skips a request that
    is already pending, so it adds no duplicate and moves no entry, and
    running it twice for the same request leaves the queue that running it
    once leaves.  The dispatch pass that ends every submission may take the
    head of the queue, so a whole submission of a pending request leaves
    the queue or its tail, and submitting twice leaves what submitting
    once leaves when the pipeline is not running. *)
Theorem resubmission_keeps_queue q (prioritized temporaryQuery : bool) s :
  (q ∈ m_queries_pending s →
     m_queries_pending (exec (resolve_loop prioritized temporaryQuery [q] 0) s) =
       m_queries_pending s ∧
     m_queries_pending (exec (resolve [q] prioritized temporaryQuery) s) =
       if dispatches s then tail (m_queries_pending s) else m_queries_pending s) ∧
  m_queries_pending
    (exec (resolve_loop prioritized temporaryQuery [q] 0)
       (exec (resolve_loop prioritized temporaryQuery [q] 0) s)) =
    m_queries_pending (exec (resolve_loop prioritized temporaryQuery [q] 0) s) ∧
  (m_running s = false →
     m_queries_pending
       (exec (resolve [q] prioritized temporaryQuery)
          (exec (resolve [q] prioritized temporaryQuery) s)) =
     m_queries_pending (exec (resolve [q] prioritized temporaryQuery) s)).
Proof.
  assert (∀ s', m_queries_pending
                  (exec (resolve_loop prioritized temporaryQuery [q] 0) s') =
                queue_after prioritized [q] (m_queries_pending s')) as Hloop.
  { intros s'. apply resolve_loop_queue. }
  split; [|split].
  - intros Hq.
    assert (queue_after prioritized [q] (m_queries_pending s) = m_queries_pending s)
      as Hsame.
    { apply queue_after_queued. intros x Hx.
      apply list_elem_of_singleton in Hx. by subst. }
    by rewrite Hloop, resolve_pending, Hsame.
  - by rewrite !Hloop, queue_after_idemp.
  - intros Hr. rewrite (resolve_not_running _ _ _ s Hr).
    rewrite resolve_not_running.
    + by rewrite !Hloop, queue_after_idemp.
    + pose proof (resolve_loop_dispatch_view prioritized temporaryQuery [q] 0 s) as Hv.
      unfold keeps, dispatch_view in Hv. injection Hv as Hr' _ _ _.
      etrans; [exact Hr'|exact Hr].
Qed.

(** ** The reaper *)

#[local] Instance stays_absent_refl k : Reflexive (stays_absent (Q:=Q) k).
Proof. intros s H. exact H. Qed.
#[local] Instance stays_absent_trans k : Transitive (stays_absent (Q:=Q) k).
Proof. intros s1 s2 s3 H1 H2 H. apply H2, H1, H. Qed.

Lemma reap_loop_stays_absent k n : obeys (stays_absent k) (reap_loop n).
Proof.
  induction n as [|n IH]; simpl; [apply obeys_ret; tc_solve|].
  obeys_walk; try (intros H; exact H); try apply IH.
  intros H. simpl. apply lookup_delete_None. by right.
Qed.

Lemma reap_loop_S n s :
  exec (reap_loop (S n)) s =
  exec (reap_loop n)
    match QList_takeAt n (m_queries_temporary s) with
    | Some (q, rest) => upd_qids (delete (qid_of s q)) (upd_temporary (λ _, rest) s)
    | None => s
    end.
Proof.
  cbn [reap_loop]. rewrite !exec_bind.
  change (value (gets (λ s0, QList_takeAt n (m_queries_temporary s0))) s)
    with (QList_takeAt n (m_queries_temporary s)).
  change (exec (gets (λ s0, QList_takeAt n (m_queries_temporary s0))) s) with s.
  by destruct (QList_takeAt n (m_queries_temporary s)) as [[q rest]|].
Qed.

Lemma QList_takeAt_last {A : Type} (l : list A) (x : A) :
  QList_takeAt (length l) (l ++ [x]) = Some (x, l).
Proof.
  unfold QList_takeAt.
  rewrite lookup_app_r, Nat.sub_diag by lia. simpl.
  rewrite take_app_length.
  rewrite drop_ge by (rewrite length_app; simpl; lia).
  by rewrite app_nil_r.
Qed.

(** The loop of the reaper empties the temporary list and takes the id of
    every request on it out of the ledger. *)
Lemma reap_loop_spec n :
  ∀ s, n = length (m_queries_temporary s) →
       m_queries_temporary (exec (reap_loop n) s) = [] ∧
       ∀ q, q ∈ m_queries_temporary s →
            m_qids (exec (reap_loop n) s) !! qid_of s q = None.
Proof.
  induction n as [|n IH]; intros s Hn.
  - symmetry in Hn. apply nil_length_inv in Hn.
    change (exec (reap_loop 0) s) with s. rewrite Hn. split; [done|].
    intros q Hq. by apply elem_of_nil in Hq.
  - destruct (m_queries_temporary s) as [|x0 l0] eqn:Hl using rev_ind; [done|].
    clear IHl0. rewrite length_app in Hn. simpl in Hn.
    assert (n = length l0) as -> by lia.
    rewrite reap_loop_S, Hl, QList_takeAt_last.
    set (s1 := upd_qids (delete (qid_of s x0)) (upd_temporary (λ _, l0) s)).
    destruct (IH s1 eq_refl) as [Hnil Hgone].
    split; [done|].
    intros q Hq. apply elem_of_app in Hq as [Hq|Hq].
    + apply (Hgone q Hq).
    + apply list_elem_of_singleton in Hq as ->.
      apply reap_loop_stays_absent. simpl. apply lookup_delete_eq.
Qed.

Lemma onTemporaryQueryTimer_spec s :
  m_queries_temporary (exec onTemporaryQueryTimer s) = [] ∧
  isActive (m_temporaryQueryTimer (exec onTemporaryQueryTimer s)) = false ∧
  ∀ q, q ∈ m_queries_temporary s →
       m_qids (exec onTemporaryQueryTimer s) !! qid_of s q = None.
Proof.
  assert (exec onTemporaryQueryTimer s =
          exec (reap_loop (length (m_queries_temporary s)))
            (upd_timer QTimer_stop s)) as -> by reflexivity.
  destruct (reap_loop_spec (length (m_queries_temporary s))
              (upd_timer QTimer_stop s) eq_refl) as [Hnil Hgone].
  split; [done|]. split; [|done].
  assert (obeys (keeps m_temporaryQueryTimer)
            (reap_loop (length (m_queries_temporary s)))) as Hk.
  { generalize (length (m_queries_temporary s)).
    induction n as [|n IH]; simpl; [apply obeys_ret; tc_solve|].
    obeys_walk; try reflexivity. apply IH. }
  by rewrite Hk.
Qed.

(** C7, as the code has it: a temporary submission puts on the temporary
    list exactly the requests it newly inserts into the pending queue, in
    batch order, and restarts the reaper's timer if there is such a
    request; a request of the batch that is already pending is skipped
    before the temporary list and the timer are reached.  Every request
    that was not pending is on the temporary list after the call, the
    timer then runs with its full interval ahead, and the reaper, when it
    fires, takes the request out of the ledger. *)
Theorem resolve_temporary_marks_new_requests qlist (prioritized : bool) s :
  m_queries_temporary (exec (resolve qlist prioritized true) s) =
    m_queries_temporary s ++ newly_inserted (m_queries_pending s) qlist ∧
  m_temporaryQueryTimer (exec (resolve qlist prioritized true) s) =
    (if bool_decide (newly_inserted (m_queries_pending s) qlist ≠ [])
     then QTimer_start (m_temporaryQueryTimer s)
     else m_temporaryQueryTimer s) ∧
  (∀ q, q ∈ qlist → q ∉ m_queries_pending s →
        q ∈ m_queries_temporary (exec (resolve qlist prioritized true) s) ∧
        isActive (m_temporaryQueryTimer (exec (resolve qlist prioritized true) s))
          = true ∧
        remaining (m_temporaryQueryTimer (exec (resolve qlist prioritized true) s))
          = interval (m_temporaryQueryTimer s) ∧
        m_qids (exec onTemporaryQueryTimer (exec (resolve qlist prioritized true) s))
          !! qid_of s q = None).
Proof.
  assert (m_queries_temporary (exec (resolve qlist prioritized true) s) =
            m_queries_temporary s ++ newly_inserted (m_queries_pending s) qlist ∧
          m_temporaryQueryTimer (exec (resolve qlist prioritized true) s) =
            (if bool_decide (newly_inserted (m_queries_pending s) qlist ≠ [])
             then QTimer_start (m_temporaryQueryTimer s)
             else m_temporaryQueryTimer s)) as [Htemp Htimer].
  { unfold resolve. rewrite exec_bind.
    pose proof (shuntNext_reaper_view
                  (exec (resolve_loop prioritized true qlist 0) s)) as Hv.
    unfold keeps, reaper_view in Hv. injection Hv as -> ->.
    destruct (resolve_loop_queue prioritized true qlist s) as (_ & -> & ->).
    done. }
  split; [done|]. split; [done|].
  intros q Hq Hnew.
  assert (q ∈ newly_inserted (m_queries_pending s) qlist) as Hfresh
    by by apply newly_inserted_elem.
  assert (q ∈ m_queries_temporary (exec (resolve qlist prioritized true) s)) as Hin.
  { rewrite Htemp. apply elem_of_app. by right. }
  rewrite Htimer.
  rewrite bool_decide_eq_true_2 by (intros Hnil; rewrite Hnil in Hfresh; by apply elem_of_nil in Hfresh).
  split; [done|]. split; [done|]. split; [done|].
  destruct (onTemporaryQueryTimer_spec (exec (resolve qlist prioritized true) s))
    as (_ & _ & Hgone).
  rewrite <- (resolve_same_ids qlist prioritized true s q).
  by apply Hgone.
Qed.

(** ** The budget map, the idle signal and the registry *)

Lemma reachable_run (es : list (Event Q)) s : reachable s → reachable (run es s).
Proof.
  revert s. induction es as [|e es IH]; intros s Hs; [done|].
  apply IH. by constructor.
Qed.

(** When the member functions run one after another, none starting before
    the one before it is through: in every state the pipeline reaches
    through its entry points and timers the budget map holds at most
    [m_maxConcurrentQueries] request ids.  A dispatch pass that finds the
    map full pops nothing; whatever happens to the pipeline gives a budget
    entry to at most one request id that had none, and only when the map
    was below the cap; result delivery, a timeout and the decrement give
    none.  [incQIDState], which nothing in pipeline.cpp calls, does give a
    budget of 1 to a request id that has none. *)
Theorem budget_map_within_cap s :
  reachable s →
  Z.of_nat (size (m_qidsState s)) ≤ m_maxConcurrentQueries s ∧
  (Z.of_nat (size (m_qidsState s)) >= m_maxConcurrentQueries s →
   m_queries_pending s ≠ [] → exec shuntNext s = s) ∧
  (∀ e : Event Q, adds_one_below_cap s (exec (step e) s)) ∧
  (∀ qid res, shrinks s (exec (reportResults qid res) s)) ∧
  (∀ q, shrinks s (exec (timeoutShunt q) s)) ∧
  (∀ q, shrinks s (exec (decQIDState q) s)) ∧
  (∀ q, m_qidsState s !! qid_of s q = None →
        size (m_qidsState (exec (incQIDState q) s)) = S (size (m_qidsState s))).
Proof.
  intros Hs. split; [by apply reachable_budget_ok|].
  split; [apply shuntNext_at_cap|].
  split; [intros e; apply step_adds_one|].
  split; [intros qid res; apply reportResults_shrinks|].
  split; [intros q; apply timeoutShunt_shrinks|].
  split; [intros q; apply decQIDState_shrinks|].
  intros q Hq. by apply incQIDState_absent.
Qed.

(** C9: a dispatch pass emits [idle] exactly when the pipeline is running
    and it finds the pending queue and the budget map both empty; and
    whatever happens to the pipeline, if [idle] is emitted then nothing is
    pending and no request holds a budget entry. *)
Theorem idle_exactly_when_nothing_left s :
  (idle ∈ output shuntNext s ↔
     m_running s = true ∧ m_queries_pending s = [] ∧ m_qidsState s = ∅) ∧
  (∀ e : Event Q,
     idle ∈ output (step e) s →
     m_running (exec (step e) s) = true ∧
     m_queries_pending (exec (step e) s) = [] ∧
     m_qidsState (exec (step e) s) = ∅).
Proof.
  split; [apply shuntNext_idle_iff|].
  intros e. apply step_idle_only.
Qed.

Lemma addResolver_iter r (n : nat) s :
  m_resolvers (Nat.iter n (exec (addResolver r)) s) = m_resolvers s ++ replicate n r.
Proof.
  induction n as [|n IH]; [by rewrite app_nil_r|].
  rewrite Nat.iter_succ, addResolver_resolvers, IH, replicate_S_end.
  by rewrite app_assoc.
Qed.

(** C10: [addResolver] appends its argument whether or not the registry
    holds it already, so registering a resolver [n] times leaves [n] more
    entries for it; one [removeResolver] takes every entry of the resolver
    out and keeps the others in their order. *)
Theorem addResolver_appends_removeResolver_removes_all r s :
  m_resolvers (exec (addResolver r) s) = m_resolvers s ++ [r] ∧
  (∀ n : nat,
     m_resolvers (Nat.iter n (exec (addResolver r)) s) =
       m_resolvers s ++ replicate n r) ∧
  m_resolvers (exec (removeResolver r) s) = filter (λ x, x ≠ r) (m_resolvers s) ∧
  (∀ n : nat,
     r ∉ m_resolvers (exec (removeResolver r) (Nat.iter n (exec (addResolver r)) s))).
Proof.
  split; [done|]. split; [intros n; apply addResolver_iter|]. split; [done|].
  intros n. rewrite removeResolver_resolvers, QList_removeAll_spec. tauto.
Qed.

(** ** The member functions case by case *)

Lemma shuntNext_no_dispatch s : dispatches s = false → exec shuntNext s = s.
Proof.
  unfold dispatches. intros Hd. rewrite shuntNext_exec.
  destruct (m_running s); [|done].
  destruct (m_queries_pending s); [done|].
  simpl in Hd. apply bool_decide_eq_false in Hd.
  rewrite bool_decide_eq_true_2 by lia. done.
Qed.

Lemma shuntNext_nothing_pending s : m_queries_pending s = [] → exec shuntNext s = s.
Proof.
  intros Hp. rewrite shuntNext_exec, Hp. by destruct (m_running s).
Qed.

Lemma shunt_exec q s :
  exec (shunt q) s =
  if m_running s then
    match selected q s with
    | Some r => exec shuntNext (dispatched q r s)
    | None => exec (setQIDState q 0) s
    end
  else s.
Proof.
  unfold selected. unfold exec, shunt, mbind, M_bind, gets. simpl.
  destruct (m_running s); simpl; [|done].
  destruct (resolvingFinished (self (queries s q))); simpl; [done|].
  destruct (nextResolver q s) as [r|]; simpl; [|done].
  unfold dispatched. rewrite (upd_query_same_ids q _ s q).
  case_bool_decide; reflexivity.
Qed.

Lemma shunt_output q s :
  output (shunt q) s =
  match selected q s with
  | Some r =>
      [Debug (dbg_dispatching r q); Resolver_resolve r q; resolving q]
      ++ output shuntNext (dispatched q r s)
  | None => []
  end.
Proof.
  unfold selected. unfold output, shunt, mbind, M_bind, gets. simpl.
  destruct (m_running s); simpl; [|done].
  destruct (resolvingFinished (self (queries s q))); simpl.
  - exact (setQIDState_output q 0 s).
  - destruct (nextResolver q s) as [r|]; simpl.
    + unfold dispatched. rewrite (upd_query_same_ids q _ s q).
      case_bool_decide; reflexivity.
    + exact (setQIDState_output q 0 s).
Qed.

Lemma timeoutShunt_exec q s :
  exec (timeoutShunt q) s =
  if m_running s && bool_decide (is_Some (m_qidsTimeout s !! qid_of s q))
  then exec (decQIDState q) s else s.
Proof.
  unfold exec, timeoutShunt, mbind, M_bind, gets. simpl.
  destruct (m_running s); simpl; [|done].
  by case_bool_decide.
Qed.

Lemma timeoutShunt_silent q : silent (timeoutShunt q).
Proof. unfold timeoutShunt. silent_walk. apply decQIDState_silent. Qed.

Lemma start_exec s : exec start s = exec shuntNext (set_running true s).
Proof. reflexivity. Qed.

Lemma start_output s :
  output start s =
  Debug (dbg_shunting_pending (length (m_queries_pending s)))
  :: output shuntNext (set_running true s).
Proof. reflexivity. Qed.

Lemma to_int_small (z : Z) : - 2 ^ 31 ≤ z < 2 ^ 31 → to_int z = z.
Proof.
  intros Hz. unfold to_int. rewrite Z.mod_small by lia. lia.
Qed.

Lemma to_int_range (z : Z) : - 2 ^ 31 ≤ to_int z < 2 ^ 31.
Proof.
  unfold to_int. pose proof (Z.mod_pos_bound (z + 2 ^ 31) (2 ^ 32)). lia.
Qed.

(** ** Stopping, starting and what a stopped pipeline does *)

Lemma setQIDState_running q st : obeys (keeps m_running) (setQIDState q st).
Proof. unfold setQIDState. obeys_walk; reflexivity. Qed.

Lemma decQIDState_running q : obeys (keeps m_running) (decQIDState q).
Proof. unfold decQIDState. obeys_walk; try reflexivity. apply setQIDState_running. Qed.

Lemma shuntNext_running : obeys (keeps m_running) shuntNext.
Proof. unfold shuntNext. obeys_walk; try reflexivity. apply setQIDState_running. Qed.

Lemma reportResults_running qid res : obeys (keeps m_running) (reportResults qid res).
Proof.
  unfold reportResults. obeys_walk; try reflexivity;
    first [apply setQIDState_running|apply decQIDState_running].
Qed.

(** X1: while the pipeline is stopped, a dispatch pass, an attempt, a
    timeout and a result delivery leave it exactly as it is and send
    nothing out; a submission still runs its insertion loop, and only
    that. *)
Theorem stopped_pipeline_is_inert s :
  m_running s = false →
  (exec shuntNext s = s ∧ output shuntNext s = []) ∧
  (∀ q, exec (shunt q) s = s ∧ output (shunt q) s = []) ∧
  (∀ q, exec (timeoutShunt q) s = s ∧ output (timeoutShunt q) s = []) ∧
  (∀ qid res, exec (reportResults qid res) s = s ∧
              output (reportResults qid res) s = []) ∧
  (∀ qlist (p t : bool),
     exec (resolve qlist p t) s = exec (resolve_loop p t qlist 0) s ∧
     m_running (exec (resolve qlist p t) s) = false).
Proof.
  intros Hr. split; [|split; [|split; [|split]]].
  - rewrite shuntNext_exec, shuntNext_output, Hr. done.
  - intros q. rewrite shunt_exec, shunt_output. unfold selected. by rewrite Hr.
  - intros q. rewrite timeoutShunt_exec, Hr. split; [done|apply timeoutShunt_silent].
  - intros qid res. rewrite reportResults_exec, reportResults_output, Hr. done.
  - intros qlist p t. rewrite resolve_not_running by done. split; [done|].
    pose proof (resolve_loop_dispatch_view p t qlist 0 s) as Hv.
    unfold keeps, dispatch_view in Hv. injection Hv as Hr' _ _ _.
    etrans; [exact Hr'|exact Hr].
Qed.

Lemma set_running_round_trip s :
  m_running s = true → set_running true (set_running false s) = s.
Proof. destruct s. simpl. intros ->. reflexivity. Qed.

(** X2: [stop] only clears the running flag, [start] sets it and runs one
    dispatch pass; stopping a running pipeline and starting it again is
    the same as one dispatch pass on it. *)
Theorem stop_then_start_is_a_dispatch_pass s :
  m_running s = true →
  m_running (exec stop s) = false ∧
  m_running (exec start (exec stop s)) = true ∧
  exec start (exec stop s) = exec shuntNext s ∧
  output start (exec stop s) =
    Debug (dbg_shunting_pending (length (m_queries_pending s))) :: output shuntNext s.
Proof.
  intros Hr.
  assert (set_running true (exec stop s) = s) as Hback
    by exact (set_running_round_trip s Hr).
  split; [done|].
  rewrite start_exec, start_output, Hback.
  split; [|done]. by rewrite shuntNext_running.
Qed.

(** ** Timeouts *)

Lemma reportResults_clears_flag qid res q s :
  m_running s = true →
  m_qids s !! qid = Some q →
  qid_of s q = qid →
  is_Some (m_qidsState s !! qid) ∨ (res ≠ [] ∧ early_success q res s = true) →
  m_qidsTimeout (exec (reportResults qid res) s) !! qid = None.
Proof.
  intros Hrun Hq Hid Hcase. rewrite reportResults_exec, Hrun, Hq.
  case_bool_decide as Hres.
  - destruct (early_success q res s) eqn:Hearly.
    + rewrite setQIDState_qidsTimeout, results_added_same_ids, Hid.
      apply lookup_delete_eq.
    + destruct Hcase as [Hb|[_ ?]]; [|done].
      rewrite decQIDState_qidsTimeout, results_added_same_ids, Hid.
      change (m_qidsState (results_added q res s)) with (m_qidsState s).
      rewrite bool_decide_eq_true_2 by done. apply lookup_delete_eq.
  - destruct Hcase as [Hb|[? _]]; [|done].
    rewrite decQIDState_qidsTimeout, Hid.
    rewrite bool_decide_eq_true_2 by done. apply lookup_delete_eq.
Qed.

(** X3: [timeoutShunt] goes by the timeout flag of the request's id alone,
    not by the attempt that armed the timeout.  With the flag clear it
    leaves the pipeline as it is and sends nothing out; this is so on the
    state [reportResults] leaves after a delivery for a request that held
    a budget entry (or that the delivery finalized), before the attempt
    that the delivery scheduled has run.  With the flag set it is
    [decQIDState], whichever attempt set the flag: a timeout left from an
    answered attempt that fires once the next attempt has set the flag
    uses up the budget of that next attempt. *)
Theorem timeoutShunt_goes_by_the_flag q s :
  m_running s = true →
  (m_qidsTimeout s !! qid_of s q = None →
   exec (timeoutShunt q) s = s ∧ output (timeoutShunt q) s = []) ∧
  (is_Some (m_qidsTimeout s !! qid_of s q) →
   exec (timeoutShunt q) s = exec (decQIDState q) s ∧
   output (timeoutShunt q) s = []) ∧
  (∀ res,
     m_qids s !! qid_of s q = Some q →
     is_Some (m_qidsState s !! qid_of s q)
     ∨ (res ≠ [] ∧ early_success q res s = true) →
     exec (timeoutShunt q) (exec (reportResults (qid_of s q) res) s)
       = exec (reportResults (qid_of s q) res) s).
Proof.
  intros Hrun. split; [|split].
  - intros Hclear. split; [|apply timeoutShunt_silent].
    rewrite timeoutShunt_exec, Hclear.
    rewrite bool_decide_eq_false_2 by (by intros [? ?]).
    by rewrite andb_false_r.
  - intros Hset. split; [|apply timeoutShunt_silent].
    rewrite timeoutShunt_exec, Hrun. by rewrite bool_decide_eq_true_2.
  - intros res Hq Hcase. rewrite timeoutShunt_exec.
    rewrite (reportResults_same_ids (qid_of s q) res s q).
    rewrite (reportResults_clears_flag (qid_of s q) res q s) by done.
    rewrite bool_decide_eq_false_2 by (by intros [? ?]).
    by rewrite andb_false_r.
Qed.

(** X4: a timeout that fires while the request still waits uses up one
    attempt: the flag is cleared and nothing is sent out; a budget above
    one is lowered by one and the next attempt is scheduled, a budget of
    one is used up and the request is finalized. *)
Theorem timeoutShunt_uses_up_one_attempt q v s :
  m_running s = true →
  is_Some (m_qidsTimeout s !! qid_of s q) →
  m_qidsState s !! qid_of s q = Some v →
  0 < v < 2 ^ 31 →
  m_qidsTimeout (exec (timeoutShunt q) s) !! qid_of s q = None ∧
  output (timeoutShunt q) s = [] ∧
  if bool_decide (1 < v) then
    m_qidsState (exec (timeoutShunt q) s) = <[qid_of s q := v - 1]> (m_qidsState s) ∧
    func_timeouts (exec (timeoutShunt q) s)
      = func_timeouts s ++ [MkFuncTimeout 0 (bind_shunt q)] ∧
    m_qids (exec (timeoutShunt q) s) = m_qids s ∧
    queries (exec (timeoutShunt q) s) = queries s
  else
    m_qidsState (exec (timeoutShunt q) s) = delete (qid_of s q) (m_qidsState s) ∧
    func_timeouts (exec (timeoutShunt q) s)
      = func_timeouts s ++ [MkFuncTimeout 0 bind_shuntNext] ∧
    m_qids (exec (timeoutShunt q) s)
      = (if bool_decide (q ∈ m_queries_temporary s) then m_qids s
         else delete (qid_of s q) (m_qids s)) ∧
    self (queries (exec (timeoutShunt q) s) q)
      = onResolvingFinished (self (queries s q)).
Proof.
  intros Hrun Hflag Hv Hrange.
  rewrite timeoutShunt_exec, Hrun, bool_decide_eq_true_2 by done. cbn [andb].
  rewrite decQIDState_exec, Hv, to_int_small by lia.
  rewrite setQIDState_qidsTimeout, setQIDState_qidsState, setQIDState_func_timeouts,
    setQIDState_qids, setQIDState_queries.
  split; [apply lookup_delete_eq|]. split; [apply timeoutShunt_silent|].
  case_bool_decide as Hone.
  - rewrite !bool_decide_eq_true_2 by lia. done.
  - rewrite !bool_decide_eq_false_2 by lia.
    repeat split. cbn. by rewrite decide_True.
Qed.

(** ** Attempts *)

Lemma resolver_calls_app (l1 l2 : list Effect) :
  resolver_calls (l1 ++ l2) = resolver_calls l1 ++ resolver_calls l2.
Proof. apply omap_app. Qed.

Lemma shuntNext_never_calls s : resolver_calls (output shuntNext s) = [].
Proof.
  rewrite shuntNext_output.
  by destruct (m_running s && bool_decide (m_queries_pending s = [])
               && bool_decide (m_qidsState s = ∅)).
Qed.

Lemma shunt_calls q s :
  resolver_calls (output (shunt q) s) =
  match selected q s with Some r => [(r, q)] | None => [] end.
Proof.
  rewrite shunt_output. destruct (selected q s) as [r|]; [|done].
  rewrite resolver_calls_app, shuntNext_never_calls. done.
Qed.

Lemma selected_Some q r s :
  m_running s = true →
  resolvingFinished (self (queries s q)) = false →
  nextResolver q s = Some r →
  selected q s = Some r.
Proof. unfold selected. by intros -> -> ->. Qed.

Lemma nextResolver_None q s :
  m_resolvers s = [] ∨
  Forall (λ r, r ∈ resolvedBy (self (queries s q))) (m_resolvers s) →
  nextResolver q s = None.
Proof.
  intros Hnone. unfold nextResolver.
  pose proof (nextResolver_scan_spec (resolvedBy (self (queries s q)))
                (m_resolvers s) None) as Hscan.
  destruct (nextResolver_scan _ (m_resolvers s) None) as [r|]; [exfalso|done].
  destruct Hscan as [[? _]|[Hbest _]]; [done|].
  destruct Hnone as [Hnil|Hall].
  - destruct Hbest as (l1 & l2 & Heq & _). rewrite Hnil in Heq. by destruct l1.
  - by eapply best_untried_not_all_tried.
Qed.


(** X5: an attempt for a request that has not finished resolving, on a
    running pipeline with a resolver left for it, calls exactly that
    resolver, once, announces it with the [resolving] signal, and goes on
    with a dispatch pass on the pipeline in which the request is
    dispatched. *)
Theorem shunt_calls_the_selected_resolver q r s :
  m_running s = true →
  resolvingFinished (self (queries s q)) = false →
  nextResolver q s = Some r →
  resolver_calls (output (shunt q) s) = [(r, q)] ∧
  output (shunt q) s =
    [Debug (dbg_dispatching r q); Resolver_resolve r q; resolving q]
    ++ output shuntNext (dispatched q r s) ∧
  exec (shunt q) s = exec shuntNext (dispatched q r s).
Proof.
  intros Hrun Hfin Hnext.
  pose proof (selected_Some q r s Hrun Hfin Hnext) as Hsel.
  by rewrite shunt_calls, shunt_output, shunt_exec, Hrun, Hsel.
Qed.

(** X6: when nothing is pending, such an attempt leaves the request
    waiting for its answer: the timeout flag of the request is set, its
    current resolver is the selected one, a timeout is armed exactly when
    the resolver has a positive one, and the budget map, the ledger and the
    registry are as they were. *)
Theorem shunt_leaves_request_waiting q r s :
  m_running s = true →
  resolvingFinished (self (queries s q)) = false →
  nextResolver q s = Some r →
  m_queries_pending s = [] →
  m_qidsTimeout (exec (shunt q) s) = <[qid_of s q := true]> (m_qidsTimeout s) ∧
  self (queries (exec (shunt q) s) q) = setCurrentResolver (Some r) (self (queries s q)) ∧
  func_timeouts (exec (shunt q) s) =
    func_timeouts s ++
      (if bool_decide (timeout r > 0)
       then [MkFuncTimeout (timeout r) (bind_timeoutShunt q)] else []) ∧
  m_qidsState (exec (shunt q) s) = m_qidsState s ∧
  m_qids (exec (shunt q) s) = m_qids s ∧
  m_resolvers (exec (shunt q) s) = m_resolvers s.
Proof.
  intros Hrun Hfin Hnext Hp.
  rewrite shunt_exec, Hrun, (selected_Some q r s Hrun Hfin Hnext).
  rewrite shuntNext_nothing_pending.
  2:{ unfold dispatched. by case_bool_decide. }
  unfold dispatched. case_bool_decide; cbn; rewrite ?decide_True by done;
    rewrite ?app_nil_r; done.
Qed.

(** X7: an attempt for a request that has finished resolving, or for
    which the registry is empty or holds only resolvers it has tried,
    calls nobody and finalizes the request: budget entry and timeout flag
    are removed, the request is told that resolving finished, it leaves
    the ledger unless it is temporary, and a dispatch pass is scheduled. *)
Theorem shunt_finalizes_when_nothing_is_left q s :
  m_running s = true →
  resolvingFinished (self (queries s q)) = true ∨
  m_resolvers s = [] ∨
  Forall (λ r, r ∈ resolvedBy (self (queries s q))) (m_resolvers s) →
  output (shunt q) s = [] ∧
  m_qidsState (exec (shunt q) s) = delete (qid_of s q) (m_qidsState s) ∧
  m_qidsTimeout (exec (shunt q) s) = delete (qid_of s q) (m_qidsTimeout s) ∧
  self (queries (exec (shunt q) s) q) = onResolvingFinished (self (queries s q)) ∧
  m_qids (exec (shunt q) s) =
    (if bool_decide (q ∈ m_queries_temporary s) then m_qids s
     else delete (qid_of s q) (m_qids s)) ∧
  func_timeouts (exec (shunt q) s) = func_timeouts s ++ [MkFuncTimeout 0 bind_shuntNext].
Proof.
  intros Hrun Hleft.
  assert (selected q s = None) as Hsel.
  { unfold selected. rewrite Hrun.
    destruct (resolvingFinished (self (queries s q))); [done|].
    destruct Hleft as [?|Hleft]; [done|]. by apply nextResolver_None. }
  rewrite shunt_output, shunt_exec, Hrun, Hsel.
  rewrite setQIDState_qidsState, setQIDState_qidsTimeout, setQIDState_queries,
    setQIDState_qids, setQIDState_func_timeouts.
  rewrite !bool_decide_eq_false_2 by lia.
  repeat split. cbn. by rewrite decide_True.
Qed.

(** ** Who gets called *)

#[local] Abbreviation never_calls := (never_calls (Q:=Q)).


Lemma silent_never_calls {A : Type} (m : M A) : silent m → never_calls m.
Proof. intros Hm s. by rewrite Hm. Qed.


Lemma setQIDState_never_calls q st : never_calls (setQIDState q st).
Proof. apply silent_never_calls. intros s. apply setQIDState_output. Qed.









(** ** The reaper at work *)

Lemma QList_takeAt_Some {A : Type} (n : nat) (l rest : list A) (x : A) :
  QList_takeAt n l = Some (x, rest) → x ∈ l ∧ ∀ y, y ∈ rest → y ∈ l.
Proof.
  unfold QList_takeAt. destruct (l !! n) as [x'|] eqn:Hn; [|done].
  intros [= <- <-]. split; [by eapply list_elem_of_lookup_2|].
  intros y Hy. apply elem_of_app in Hy as [Hy|Hy].
  - by apply (subseteq_take n l).
  - by apply (subseteq_drop (S n) l).
Qed.

Lemma reap_loop_other_ids n :
  ∀ s (k : QID),
    (∀ q, q ∈ m_queries_temporary s → qid_of s q ≠ k) →
    m_qids (exec (reap_loop n) s) !! k = m_qids s !! k.
Proof.
  induction n as [|n IH]; intros s k Hk; [done|].
  rewrite reap_loop_S.
  destruct (QList_takeAt n (m_queries_temporary s)) as [[x rest]|] eqn:Ht.
  - apply QList_takeAt_Some in Ht as [Hx Hrest].
    rewrite IH.
    + simpl. apply lookup_delete_ne. by apply Hk.
    + intros q Hq. apply Hk, Hrest, Hq.
  - by apply IH.
Qed.

Lemma reap_loop_frame n : obeys (keeps reaper_frame) (reap_loop n).
Proof.
  induction n as [|n IH]; simpl; [apply obeys_ret; tc_solve|].
  obeys_walk; try reflexivity. apply IH.
Qed.

(** X10: when the reaper's timer fires, the timer is stopped, the
    temporary list is emptied and the id of every request on it leaves the
    ledger, also of a request that is still pending or still holds a
    budget entry; ids of no temporary request stay, and the queue, the
    budget map, the timeout flags and the armed timeouts are untouched.  A
    later delivery for a reaped request is dropped. *)
Theorem reaper_evicts_every_temporary_request s :
  m_queries_temporary (exec onTemporaryQueryTimer s) = [] ∧
  isActive (m_temporaryQueryTimer (exec onTemporaryQueryTimer s)) = false ∧
  (∀ q, q ∈ m_queries_temporary s →
        m_qids (exec onTemporaryQueryTimer s) !! qid_of s q = None) ∧
  (∀ k : QID, (∀ q, q ∈ m_queries_temporary s → qid_of s q ≠ k) →
        m_qids (exec onTemporaryQueryTimer s) !! k = m_qids s !! k) ∧
  reaper_frame (exec onTemporaryQueryTimer s) = reaper_frame s ∧
  (∀ q res, q ∈ m_queries_temporary s →
        exec (reportResults (qid_of s q) res) (exec onTemporaryQueryTimer s)
        = exec onTemporaryQueryTimer s).
Proof.
  destruct (onTemporaryQueryTimer_spec s) as (Hnil & Hstop & Hgone).
  split; [done|]. split; [done|]. split; [done|].
  split; [|split].
  - intros k Hk.
    change (exec onTemporaryQueryTimer s)
      with (exec (reap_loop (length (m_queries_temporary s))) (upd_timer QTimer_stop s)).
    by rewrite reap_loop_other_ids.
  - change (exec onTemporaryQueryTimer s)
      with (exec (reap_loop (length (m_queries_temporary s))) (upd_timer QTimer_stop s)).
    by rewrite reap_loop_frame.
  - intros q res Hq. rewrite reportResults_exec, (Hgone q Hq).
    by destruct (m_running _).
Qed.

(** ** Invariants of the pipeline *)

#[local] Instance preserves_refl (I : Pipeline Q → Prop) : Reflexive (preserves I).
Proof. intros s H. exact H. Qed.
#[local] Instance preserves_trans (I : Pipeline Q → Prop) : Transitive (preserves I).
Proof. intros s1 s2 s3 H1 H2 H. apply H2, H1, H. Qed.

Section Invariant.

(** A property of the budget map and the pending queue that finalizing or
    re-budgeting a request, a dispatch pass and a round of a submission
    preserve is preserved by whatever happens to the pipeline. *)
Variable I : Pipeline Q → Prop.

Hypothesis I_frame :
  ∀ s s', m_qidsState s' = m_qidsState s →
          m_queries_pending s' = m_queries_pending s → I s → I s'.
Hypothesis I_setQIDState : ∀ q z, obeys (preserves I) (setQIDState q (to_int z)).
Hypothesis I_shuntNext : obeys (preserves I) shuntNext.
Hypothesis I_resolve_round :
  ∀ (p t : bool) q i, obeys (preserves I) (resolve_round p t q i).

Ltac inv_walk :=
  obeys_walk; try (unfold preserves; apply I_frame; reflexivity).

Lemma invariant_finalize q : obeys (preserves I) (setQIDState q 0).
Proof. apply (I_setQIDState q 0). Qed.

Lemma invariant_decQIDState q : obeys (preserves I) (decQIDState q).
Proof. unfold decQIDState. inv_walk. apply I_setQIDState. Qed.

Lemma invariant_shunt q : obeys (preserves I) (shunt q).
Proof.
  unfold shunt. inv_walk; first [apply I_shuntNext|apply invariant_finalize].
Qed.

Lemma invariant_resolve qlist (p t : bool) : obeys (preserves I) (resolve qlist p t).
Proof.
  unfold resolve. apply obeys_bind; [tc_solve| |intros _; apply I_shuntNext].
  generalize 0%nat. induction qlist as [|q qlist IH]; intros i; simpl.
  - apply obeys_ret; tc_solve.
  - apply obeys_bind; [tc_solve|apply I_resolve_round|intros ?; apply IH].
Qed.

Lemma invariant_resolve_query (oq : option query_ptr) (p t : bool) :
  obeys (preserves I) (resolve_query oq p t).
Proof. destruct oq; simpl; [apply invariant_resolve|apply obeys_ret; tc_solve]. Qed.

Lemma invariant_reap_loop n : obeys (preserves I) (reap_loop n).
Proof.
  induction n as [|n IH]; simpl; [apply obeys_ret; tc_solve|].
  inv_walk. apply IH.
Qed.

Lemma invariant_step (e : Event Q) : obeys (preserves I) (step e).
Proof.
  destruct e; simpl.
  - unfold start. inv_walk. apply I_shuntNext.
  - unfold stop. inv_walk.
  - unfold addResolver. inv_walk.
  - unfold removeResolver. inv_walk.
  - apply invariant_resolve.
  - apply invariant_resolve_query.
  - unfold resolve_qid. inv_walk. apply invariant_resolve_query.
  - unfold reportResults. inv_walk; first [apply invariant_finalize|apply invariant_decQIDState].
  - unfold FuncTimeout_fires. inv_walk.
    match goal with |- obeys _ (call_Func ?f) => destruct f end; simpl.
    + apply invariant_shunt.
    + apply I_shuntNext.
    + unfold timeoutShunt. inv_walk. apply invariant_decQIDState.
  - unfold onTemporaryQueryTimer. inv_walk. apply invariant_reap_loop.
  - inv_walk.
  - inv_walk.
Qed.

Lemma invariant_reachable :
  (∀ n objs, I (Pipeline_new n objs)) → ∀ s, reachable s → I s.
Proof.
  intros Hnew s. induction 1 as [n objs|s e _ IH]; [apply Hnew|].
  by apply invariant_step.
Qed.

End Invariant.

Lemma budgets_positive_reachable s : reachable s → budgets_positive s.
Proof.
  apply (invariant_reachable budgets_positive).
  - intros s1 s2 Hb _ H k v. rewrite Hb. apply H.
  - intros q z s1 H k v. rewrite setQIDState_qidsState.
    pose proof (to_int_range z). case_bool_decide.
    + intros Hk. apply lookup_insert_Some in Hk as [[_ <-]|[_ Hk]]; [lia|by eapply H].
    + intros Hk. apply lookup_delete_Some in Hk as [_ Hk]. by eapply H.
  - unfold shuntNext. obeys_walk; try (intros H; exact H).
    intros s1 H k v. rewrite setQIDState_qidsState.
    match goal with |- context [to_int ?z] => pose proof (to_int_range z) end.
    case_bool_decide.
    + intros Hk. apply lookup_insert_Some in Hk as [[_ <-]|[_ Hk]]; [lia|by eapply H].
    + intros Hk. apply lookup_delete_Some in Hk as [_ Hk]. by eapply H.
  - intros p t q i. unfold resolve_round. obeys_walk; intros H; exact H.
  - intros n objs k v Hk. simpl in Hk. by rewrite lookup_empty in Hk.
Qed.

(** X11: in every state the pipeline reaches, every budget in the map is a
    positive [int]; so the decrement of a budget never wraps around, and a
    request with a budget entry always has at least one attempt left. *)
Theorem budgets_stay_positive s :
  reachable s →
  ∀ (k : QID) (v : Z),
    m_qidsState s !! k = Some v → 0 < v < 2 ^ 31 ∧ to_int (v - 1) = v - 1.
Proof.
  intros Hs k v Hk. apply budgets_positive_reachable in Hs.
  specialize (Hs k v Hk). split; [done|]. apply to_int_small. lia.
Qed.

Lemma NoDup_QList_insert {A : Type} (i : nat) (x : A) (l : list A) :
  x ∉ l → NoDup l → NoDup (QList_insert i x l).
Proof.
  intros Hx Hl. unfold QList_insert.
  rewrite <- Permutation_middle, take_drop. by constructor.
Qed.

Lemma pending_NoDup_reachable s : reachable s → pending_NoDup s.
Proof.
  apply (invariant_reachable pending_NoDup); unfold pending_NoDup.
  - intros s1 s2 _ Hp H. by rewrite Hp.
  - intros q z s1 H. by rewrite setQIDState_pending.
  - intros s1 H. rewrite shuntNext_pending.
    destruct (dispatches s1); [|done].
    destruct (m_queries_pending s1); [done|]. by apply NoDup_cons in H as [_ H].
  - intros p t q i s1 H. rewrite resolve_round_pending.
    case_bool_decide; [done|]. destruct p.
    + by apply NoDup_QList_insert.
    + apply NoDup_app. split; [done|]. split; [|apply NoDup_singleton].
      intros x Hx Hq. apply list_elem_of_singleton in Hq. by subst.
  - intros n objs. constructor.
Qed.

(** X12: in every state the pipeline reaches, no request is in the pending
    queue twice; so the request at the head, once a dispatch pass has
    taken it, is not pending any more. *)
Theorem pending_queue_has_no_duplicates s :
  reachable s →
  NoDup (m_queries_pending s) ∧
  (dispatches s = true →
   ∀ q, head (m_queries_pending s) = Some q →
        q ∉ m_queries_pending (exec shuntNext s)).
Proof.
  intros Hs. apply pending_NoDup_reachable in Hs. unfold pending_NoDup in Hs.
  split; [done|].
  intros Hd q Hq. rewrite shuntNext_pending, Hd.
  destruct (m_queries_pending s) as [|q' rest]; [done|].
  injection Hq as ->. by apply NoDup_cons in Hs as [Hnot _].
Qed.

Lemma run_same_ids (es : list (Event Q)) s p : qid_of (run es s) p = qid_of s p.
Proof.
  revert s. induction es as [|e es IH]; intros s; [done|].
  simpl. change (foldl (λ s0 e0, exec (step e0) s0) (exec (step e) s) es)
    with (run es (exec (step e) s)).
  rewrite IH. apply step_same_ids.
Qed.

(** X13: whatever happens to the pipeline, a query object keeps the id it
    has; and in every state the pipeline reaches, what the ledger holds for
    an id is a query object with that id. *)
Theorem ledger_files_queries_under_their_ids s :
  reachable s →
  (∀ (qid : QID) q, m_qids s !! qid = Some q → qid_of s q = qid) ∧
  (∀ (es : list (Event Q)) qid q,
     m_qids (run es s) !! qid = Some q → qid_of s q = qid).
Proof.
  intros Hs. split; [by apply reachable_ledger_wf|].
  intros es qid q Hq. rewrite <- (run_same_ids es s q).
  apply (reachable_ledger_wf (run es s)); [by apply reachable_run|done].
Qed.

Lemma step_cap (e : Event Q) s :
  m_maxConcurrentQueries (exec (step e) s) = m_maxConcurrentQueries s.
Proof. by destruct (step_adds_one e s) as [Hcap _]. Qed.

(** X14: the cap on concurrent requests is fixed when the pipeline is
    built, as the host's ideal thread count clamped to the range from 4 to
    16 (an unknown count of -1 gives 4), and nothing that happens to the
    pipeline changes it. *)
Theorem concurrency_cap_is_fixed (idealThreadCount : Z)
    (objs : query_ptr → QueryObj Q) (es : list (Event Q)) :
  m_maxConcurrentQueries (run es (Pipeline_new idealThreadCount objs))
    = Z.max 4 (Z.min 16 idealThreadCount) ∧
  4 ≤ m_maxConcurrentQueries (run es (Pipeline_new idealThreadCount objs)) ≤ 16 ∧
  m_running (Pipeline_new idealThreadCount objs) = false.
Proof.
  assert (∀ s, m_maxConcurrentQueries (run es s) = m_maxConcurrentQueries s) as Hrun.
  { induction es as [|e es IH]; intros s; [done|].
    simpl. change (foldl (λ s0 e0, exec (step e0) s0) (exec (step e) s) es)
      with (run es (exec (step e) s)).
    by rewrite IH, step_cap. }
  rewrite Hrun. simpl.
  unfold qBound, DEFAULT_CONCURRENT_QUERIES, MAX_CONCURRENT_QUERIES. lia.
Qed.

(** ** Dispatch, registration and the budget counter *)

(** X15: a dispatch pass on a running pipeline with a free budget slot
    takes the request at the head of the queue, clears its current
    resolver and its timeout flag, and sends nothing out.  With resolvers
    registered the request gets a budget equal to their number and its
    first attempt is scheduled; with an empty registry it is finalized at
    once. *)
Theorem shuntNext_budget_is_registry_size q rest s :
  m_running s = true →
  m_queries_pending s = q :: rest →
  Z.of_nat (size (m_qidsState s)) < m_maxConcurrentQueries s →
  Z.of_nat (length (m_resolvers s)) < 2 ^ 31 →
  m_queries_pending (exec shuntNext s) = rest ∧
  output shuntNext s = [] ∧
  m_qidsTimeout (exec shuntNext s) = delete (qid_of s q) (m_qidsTimeout s) ∧
  if bool_decide (m_resolvers s = []) then
    m_qidsState (exec shuntNext s) = delete (qid_of s q) (m_qidsState s) ∧
    self (queries (exec shuntNext s) q)
      = onResolvingFinished (setCurrentResolver None (self (queries s q))) ∧
    func_timeouts (exec shuntNext s)
      = func_timeouts s ++ [MkFuncTimeout 0 bind_shuntNext] ∧
    m_qids (exec shuntNext s)
      = (if bool_decide (q ∈ m_queries_temporary s) then m_qids s
         else delete (qid_of s q) (m_qids s))
  else
    m_qidsState (exec shuntNext s)
      = <[qid_of s q := Z.of_nat (length (m_resolvers s))]> (m_qidsState s) ∧
    self (queries (exec shuntNext s) q)
      = setCurrentResolver None (self (queries s q)) ∧
    func_timeouts (exec shuntNext s)
      = func_timeouts s ++ [MkFuncTimeout 0 (bind_shunt q)] ∧
    m_qids (exec shuntNext s) = m_qids s.
Proof.
  intros Hrun Hp Hfree Hlen.
  rewrite shuntNext_output, shuntNext_exec, Hrun, Hp.
  rewrite (bool_decide_eq_false_2 (_ >= _)) by lia.
  rewrite to_int_small by lia.
  rewrite setQIDState_pending, setQIDState_qidsTimeout, setQIDState_qidsState,
    setQIDState_queries, setQIDState_func_timeouts, setQIDState_qids.
  rewrite (upd_query_same_ids q _ _ q).
  split; [done|]. split; [done|]. split; [done|].
  destruct (m_resolvers s) as [|r0 rs] eqn:Hrs.
  - rewrite bool_decide_eq_true_2 by done.
    rewrite !bool_decide_eq_false_2 by (simpl; lia).
    repeat split. cbn. by rewrite !decide_True.
  - rewrite (bool_decide_eq_false_2 (_ = [])) by done.
    rewrite !bool_decide_eq_true_2 by (simpl; lia).
    repeat split. cbn. by rewrite decide_True.
Qed.

Lemma resolve_round_keeps_entries (p t : bool) q i s (k : QID) (x : query_ptr) :
  m_qids s !! k = Some x → m_qids (exec (resolve_round p t q i) s) !! k = Some x.
Proof.
  intros Hk. rewrite resolve_round_qids. case_bool_decide as Hknown; [done|].
  rewrite lookup_insert_ne; [done|]. intros <-. apply Hknown. by rewrite Hk.
Qed.

Lemma resolve_round_registers (p t : bool) q i s :
  is_Some (m_qids (exec (resolve_round p t q i) s) !! qid_of s q).
Proof.
  rewrite resolve_round_qids. case_bool_decide; [done|].
  rewrite lookup_insert_eq. by eexists.
Qed.

Lemma resolve_round_new_entries (p t : bool) q i s (k : QID) :
  is_Some (m_qids (exec (resolve_round p t q i) s) !! k) →
  is_Some (m_qids s !! k) ∨ qid_of s q = k.
Proof.
  rewrite resolve_round_qids. case_bool_decide; [by left|].
  destruct (decide (qid_of s q = k)) as [->|Hne]; [by right|].
  rewrite lookup_insert_ne by done. by left.
Qed.

Lemma resolve_loop_ledger (p t : bool) qlist :
  ∀ i s,
    (∀ (k : QID) x, m_qids s !! k = Some x →
       m_qids (exec (resolve_loop p t qlist i) s) !! k = Some x) ∧
    (∀ q, q ∈ qlist →
       is_Some (m_qids (exec (resolve_loop p t qlist i) s) !! qid_of s q)) ∧
    (∀ k : QID, is_Some (m_qids (exec (resolve_loop p t qlist i) s) !! k) →
       is_Some (m_qids s !! k) ∨ ∃ q, q ∈ qlist ∧ qid_of s q = k).
Proof.
  induction qlist as [|q qlist IH]; intros i s.
  - change (exec (resolve_loop p t [] i) s) with s.
    split; [done|]. split; [|by left].
    intros q Hq. by apply elem_of_nil in Hq.
  - cbn [resolve_loop]. rewrite exec_bind.
    destruct (IH (value (resolve_round p t q i) s) (exec (resolve_round p t q i) s))
      as (Hkeep & Hreg & Hnew).
    split; [|split].
    + intros k x Hk. by apply Hkeep, resolve_round_keeps_entries.
    + intros q' Hq'. apply elem_of_cons in Hq' as [->|Hq'].
      * destruct (resolve_round_registers p t q i s) as [x Hx].
        exists x. by apply Hkeep.
      * rewrite <- (resolve_round_same_ids p t q i s q'). by apply Hreg.
    + intros k Hk. apply Hnew in Hk as [Hk|(q' & Hq' & Hid)].
      * apply resolve_round_new_entries in Hk as [Hk|Hk]; [by left|].
        right. exists q. split; [left|done].
      * right. exists q'. split; [by right|].
        by rewrite <- (resolve_round_same_ids p t q i s q').
Qed.

Lemma first_with_id_same_ids s s' (k : QID) (qlist : list query_ptr) :
  (∀ p, qid_of s' p = qid_of s p) →
  first_with_id s' k qlist = first_with_id s k qlist.
Proof.
  intros Hid. unfold first_with_id. f_equal.
  induction qlist as [|q qlist IH]; [done|].
  rewrite !filter_cons, Hid, IH. done.
Qed.

(** The ledger once the loop of a submission is through. *)
Lemma resolve_loop_ledger_after (p t : bool) qlist :
  ∀ i s (k : QID),
    m_qids (exec (resolve_loop p t qlist i) s) !! k = ledger_after s qlist k.
Proof.
  induction qlist as [|q qlist IH]; intros i s k.
  - change (exec (resolve_loop p t [] i) s) with s.
    unfold ledger_after, first_with_id. simpl. by destruct (m_qids s !! k).
  - cbn [resolve_loop]. rewrite exec_bind, IH.
    unfold ledger_after.
    rewrite (first_with_id_same_ids s _ k qlist (resolve_round_same_ids p t q i s)).
    rewrite resolve_round_qids. unfold first_with_id. rewrite filter_cons.
    case_bool_decide as Hknown.
    + destruct (m_qids s !! k) eqn:Hk; [done|].
      rewrite decide_False; [done|]. intros Heq. rewrite Heq, Hk in Hknown.
      by destruct Hknown.
    + destruct (decide (qid_of s q = k)) as [<-|Hne].
      * rewrite lookup_insert_eq. destruct (m_qids s !! qid_of s q) eqn:Hk; [|done].
        exfalso. apply Hknown. by eexists.
      * by rewrite lookup_insert_ne.
Qed.

(** X16: a submission that is not followed by a dispatch (the pipeline is
    stopped or its budget map is full) leaves under every id the entry the
    ledger held already, or else the first request of the batch with that
    id, and nothing under an id of neither kind.  So a request of the batch
    is filed itself if the ledger did not hold its id and no other request
    of the batch has that id; a request whose id the ledger holds already
    is not filed, the entry stays as it was. *)
Theorem resolve_files_first_request_of_each_id qlist (p t : bool) s :
  dispatches s = false →
  (∀ k : QID, m_qids (exec (resolve qlist p t) s) !! k = ledger_after s qlist k) ∧
  (∀ q, q ∈ qlist →
     m_qids s !! qid_of s q = None →
     (∀ q', q' ∈ qlist → qid_of s q' = qid_of s q → q' = q) →
     m_qids (exec (resolve qlist p t) s) !! qid_of s q = Some q) ∧
  (∀ q x, m_qids s !! qid_of s q = Some x →
     m_qids (exec (resolve qlist p t) s) !! qid_of s q = Some x).
Proof.
  intros Hd.
  assert (exec (resolve qlist p t) s = exec (resolve_loop p t qlist 0) s) as ->.
  { unfold resolve. rewrite exec_bind. apply shuntNext_no_dispatch.
    pose proof (resolve_loop_dispatch_view p t qlist 0 s) as Hv.
    unfold keeps, dispatch_view in Hv. injection Hv as Hr Hc Hb _.
    unfold dispatches. rewrite Hr, Hc, Hb. exact Hd. }
  split; [apply resolve_loop_ledger_after|]. split.
  - intros q Hq Hnew Honly. rewrite resolve_loop_ledger_after.
    unfold ledger_after, first_with_id. rewrite Hnew.
    destruct (filter (λ q0, qid_of s q0 = qid_of s q) qlist) as [|q1 l] eqn:Hf.
    + exfalso. by apply (filter_nil_not_elem_of _ _ q Hf).
    + simpl. f_equal.
      assert (q1 ∈ filter (λ q0, qid_of s q0 = qid_of s q) qlist) as Hin.
      { rewrite Hf. left. }
      apply list_elem_of_filter in Hin as [Hid Hin]. by apply Honly.
  - intros q x Hx. rewrite resolve_loop_ledger_after.
    unfold ledger_after. by rewrite Hx.
Qed.

Lemma incQIDState_present q v s :
  m_qidsState s !! qid_of s q = Some v →
  value (incQIDState q) s = to_int (v + 1) ∧
  exec (incQIDState q) s = upd_qidsState (<[qid_of s q := to_int (v + 1)]>) s.
Proof.
  intros Hv. unfold incQIDState. run_monad. by rewrite Hv.
Qed.

Lemma decQIDState_value q s :
  value (decQIDState q) s =
  match m_qidsState s !! qid_of s q with
  | Some v => to_int (v - 1)
  | None => 0
  end.
Proof.
  unfold decQIDState. run_monad. by destruct (m_qidsState s !! qid_of s q).
Qed.

(** X17: for a request with a budget [v] (below the largest [int]),
    [incQIDState] returns [v + 1] and stores it, and a [decQIDState] after
    it returns [v] and leaves the budget map as it was before the two. *)
Theorem incQIDState_then_decQIDState q v s :
  m_qidsState s !! qid_of s q = Some v →
  0 < v < 2 ^ 31 - 1 →
  value (incQIDState q) s = v + 1 ∧
  m_qidsState (exec (incQIDState q) s) = <[qid_of s q := v + 1]> (m_qidsState s) ∧
  value (decQIDState q) (exec (incQIDState q) s) = v ∧
  m_qidsState (exec (decQIDState q) (exec (incQIDState q) s)) = m_qidsState s.
Proof.
  intros Hv Hrange.
  destruct (incQIDState_present q v s Hv) as [Hval Hexec].
  rewrite Hval, Hexec, to_int_small by lia.
  split; [done|]. split; [done|].
  rewrite decQIDState_value, decQIDState_exec.
  change (qid_of (upd_qidsState <[qid_of s q:=v + 1]> s) q) with (qid_of s q).
  change (m_qidsState (upd_qidsState <[qid_of s q:=v + 1]> s))
    with (<[qid_of s q:=v + 1]> (m_qidsState s)).
  rewrite lookup_insert_eq.
  replace (v + 1 - 1) with v by lia. rewrite to_int_small by lia.
  split; [done|].
  rewrite setQIDState_qidsState, bool_decide_eq_true_2 by lia.
  change (qid_of (upd_qidsState <[qid_of s q:=v + 1]> s) q) with (qid_of s q).
  change (m_qidsState (upd_qidsState <[qid_of s q:=v + 1]> s))
    with (<[qid_of s q:=v + 1]> (m_qidsState s)).
  rewrite insert_insert_eq. by apply insert_id.
Qed.

(** ** Answers that do not finalize, and the index of results *)

Lemma setQIDState_rids q st : obeys (keeps m_rids) (setQIDState q st).
Proof. unfold setQIDState. obeys_walk; reflexivity. Qed.

Lemma decQIDState_rids q : obeys (keeps m_rids) (decQIDState q).
Proof. unfold decQIDState. obeys_walk; try reflexivity. apply setQIDState_rids. Qed.

(** X18: on a running pipeline, an answer for a request with a budget that
    is empty, or after which the request is not playable or is a full-text
    query, uses up one attempt: results, if any, are added first, the
    timeout flag is cleared and nothing is sent out; a budget above one is
    lowered by one and the next attempt is scheduled, a budget of one ends
    in the request being finalized. *)
Theorem reportResults_uses_up_one_attempt qid res q v s :
  m_running s = true →
  m_qids s !! qid = Some q →
  qid_of s q = qid →
  m_qidsState s !! qid = Some v →
  0 < v < 2 ^ 31 →
  res = [] ∨ early_success q res s = false →
  exec (reportResults qid res) s =
    exec (setQIDState q (v - 1))
      (if bool_decide (res ≠ []) then results_added q res s else s) ∧
  m_qidsState (exec (reportResults qid res) s) =
    (if bool_decide (1 < v) then <[qid := v - 1]> (m_qidsState s)
     else delete qid (m_qidsState s)) ∧
  func_timeouts (exec (reportResults qid res) s) =
    func_timeouts s ++
      [MkFuncTimeout 0 (if bool_decide (1 < v) then bind_shunt q else bind_shuntNext)] ∧
  m_qidsTimeout (exec (reportResults qid res) s) = delete qid (m_qidsTimeout s) ∧
  output (reportResults qid res) s = [].
Proof.
  intros Hrun Hq Hid Hv Hrange Hcase.
  rewrite reportResults_output, reportResults_exec, Hrun, Hq.
  assert (∀ s1, qid_of s1 q = qid →
            m_qidsState s1 = m_qidsState s →
            func_timeouts s1 = func_timeouts s →
            m_qidsTimeout s1 = m_qidsTimeout s →
            exec (decQIDState q) s1 = exec (setQIDState q (v - 1)) s1 ∧
            m_qidsState (exec (decQIDState q) s1) =
              (if bool_decide (1 < v) then <[qid := v - 1]> (m_qidsState s)
               else delete qid (m_qidsState s)) ∧
            func_timeouts (exec (decQIDState q) s1) =
              func_timeouts s ++
                [MkFuncTimeout 0
                   (if bool_decide (1 < v) then bind_shunt q else bind_shuntNext)] ∧
            m_qidsTimeout (exec (decQIDState q) s1) = delete qid (m_qidsTimeout s))
    as Hdec.
  { intros s1 Hid1 Hb1 Hf1 Ht1.
    rewrite decQIDState_exec, Hid1, Hb1, Hv, to_int_small by lia.
    rewrite setQIDState_qidsState, setQIDState_func_timeouts,
      setQIDState_qidsTimeout, Hid1, Hb1, Hf1, Ht1.
    split; [done|].
    case_bool_decide; [rewrite !bool_decide_eq_true_2 by lia
                      |rewrite !bool_decide_eq_false_2 by lia]; done. }
  destruct (decide (res = [])) as [Hnil|Hres].
  - rewrite !(bool_decide_eq_false_2 (res ≠ [])) by (intros Hne; by apply Hne).
    destruct (Hdec s) as (H1 & H2 & H3 & H4); [done..|].
    by rewrite H2, H3, H4.
  - rewrite !(bool_decide_eq_true_2 (res ≠ [])) by done.
    destruct Hcase as [?|Hearly]; [done|]. rewrite Hearly.
    destruct (Hdec (results_added q res s)) as (H1 & H2 & H3 & H4);
      [by rewrite results_added_same_ids|done..|].
    by rewrite H2, H3, H4.
Qed.

Lemma index_results_lookup (l : list result_ptr) :
  ∀ (m : gmap string result_ptr),
    (∀ x, x ∈ l →
       ∃ y, y ∈ l ∧ rid y = rid x ∧
            foldl (λ m x, <[rid x := x]> m) m l !! rid x = Some y) ∧
    (∀ k : RID, (∀ x, x ∈ l → rid x ≠ k) →
       foldl (λ m x, <[rid x := x]> m) m l !! k = m !! k).
Proof.
  induction l as [|z l IH] using rev_ind; intros m.
  - split; [|done]. intros x Hx. by apply elem_of_nil in Hx.
  - rewrite foldl_app. simpl. destruct (IH m) as [Hin Hout]. split.
    + intros x Hx. destruct (decide (rid z = rid x)) as [Heq|Hne].
      * exists z. split; [set_solver|]. split; [done|].
        rewrite <- Heq. apply lookup_insert_eq.
      * apply elem_of_app in Hx as [Hx|Hx]; [|set_solver].
        destruct (Hin x Hx) as (y & Hy & Hrid & Hlook).
        exists y. split; [set_solver|]. split; [done|].
        by rewrite lookup_insert_ne.
    + intros k Hk. rewrite lookup_insert_ne by (apply Hk; set_solver).
      apply Hout. intros x Hx. apply Hk. set_solver.
Qed.

Lemma reportResults_rids qid res q s :
  m_running s = true →
  m_qids s !! qid = Some q →
  res ≠ [] →
  m_rids (exec (reportResults qid res) s) =
  foldl (λ m x, <[rid x := x]> m) (m_rids s)
    (results (addResults res (self (queries s q)))).
Proof.
  intros Hrun Hq Hres. rewrite reportResults_exec, Hrun, Hq.
  rewrite bool_decide_eq_true_2 by done.
  assert (m_rids (results_added q res s) =
          foldl (λ m x, <[rid x := x]> m) (m_rids s)
            (results (addResults res (self (queries s q))))) as <-.
  { unfold results_added. cbn. by rewrite decide_True. }
  destruct (early_success q res s); [apply setQIDState_rids|apply decQIDState_rids].
Qed.

(** X19: a non-empty delivery for a request of the ledger indexes every
    result the request then holds under the id of the result (of two
    results with one id, one of them is found), and leaves the index
    entries of all other ids as they were. *)
Theorem reportResults_indexes_results qid res q s :
  m_running s = true →
  m_qids s !! qid = Some q →
  res ≠ [] →
  (∀ x, x ∈ results (addResults res (self (queries s q))) →
     ∃ y, y ∈ results (addResults res (self (queries s q))) ∧ rid y = rid x ∧
          m_rids (exec (reportResults qid res) s) !! rid x = Some y) ∧
  (∀ k : RID,
     (∀ x, x ∈ results (addResults res (self (queries s q))) → rid x ≠ k) →
     m_rids (exec (reportResults qid res) s) !! k = m_rids s !! k).
Proof.
  intros Hrun Hq Hres. rewrite (reportResults_rids qid res q s) by done.
  apply index_results_lookup.
Qed.

(** ** The dispatch pass and its lock *)

(** [shuntNext] is its locked block followed by the call of [setQIDState]:
    same result, same state, same output. *)
Lemma shuntNext_in_two_steps_eq s : shuntNext_in_two_steps s = shuntNext s.
Proof.
  unfold shuntNext_in_two_steps, shuntNext, shuntNext_to_unlock, shuntNext_locked,
    shuntNext_unlocked.
  generalize (setQIDState (Q:=Q)). intros F.
  unfold mbind, M_bind, gets. simpl.
  destruct (m_running s); simpl; [|done].
  destruct (m_queries_pending s) as [|q rest]; simpl.
  - case_bool_decide; simpl; done.
  - case_bool_decide; simpl; [done|].
    match goal with
    | |- context [F ?a ?b ?c] => by destruct (F a b c) as [[[] ?] ?]
    end.
Qed.

(** One pass after the other: the second begins once the first has called
    [setQIDState]. *)
Lemma shuntNext_to_unlock_then_unlocked s :
  exec (shuntNext_unlocked (value shuntNext_to_unlock s)) (exec shuntNext_to_unlock s)
  = exec shuntNext s.
Proof.
  change (exec shuntNext s) with (shuntNext s).1.2.
  by rewrite <- shuntNext_in_two_steps_eq.
Qed.

(** ** Requests with ids of their own: the timeout flag *)

Section Orderly.

Context `{QL : !QueryLaws Q}.





















End Orderly.

End Properties.

(** * The concrete pipeline at work *)

Import Scenario.

(** ** Resolver selection on examples *)

(** Scenario A of the specification: with R1 (weight 10) and R2 (weight
    20) registered, a request that tried nothing goes to R2. *)
Example nextResolver_heaviest :
  nextResolver 1%positive (run [call_addResolver R1; call_addResolver R2] fresh)
  = Some R2.
Proof. reflexivity. Qed.

(** R2 and R3 weigh the same: the one registered first is selected. *)
Example nextResolver_tie_first_registered :
  nextResolver 1%positive
    (run [call_addResolver R1; call_addResolver R2; call_addResolver R3] fresh)
  = Some R2 ∧
  nextResolver 1%positive
    (run [call_addResolver R1; call_addResolver R3; call_addResolver R2] fresh)
  = Some R3.
Proof. split; reflexivity. Qed.

(** A request that tried R2 already goes to R1; one that tried both, or a
    pipeline without resolvers, has no resolver left. *)
Example nextResolver_skips_tried :
  nextResolver 1%positive
    (run [call_addResolver R1; call_addResolver R2;
          query_changed 1%positive (setCurrentResolver (Some R2))] fresh)
  = Some R1 ∧
  nextResolver 1%positive
    (run [call_addResolver R1; call_addResolver R2;
          query_changed 1%positive (setCurrentResolver (Some R2));
          query_changed 1%positive (setCurrentResolver (Some R1))] fresh)
  = None ∧
  nextResolver 1%positive fresh = None.
Proof. repeat split; reflexivity. Qed.

(** ** Scenarios of the specification *)

(** Scenario A: R1 (weight 10) and R2 (weight 20) are registered and a
    request is submitted.  It goes to R2 first; R2 answers with nothing and
    it goes to R1; R1 answers with a result and the request is finalized,
    tried by R2 then R1, holding the result of R1. *)
Example scenario_A :
  let events :=
    [call_addResolver R1; call_addResolver R2; call_start;
     call_resolve [1%positive] false false;
     fire_FuncTimeout 0;
     call_reportResults "q1" [];
     fire_FuncTimeout 0;
     call_reportResults "q1" [Result 1 "r1"]] in
  resolver_calls (trace events fresh) = [(R2, 1%positive); (R1, 1%positive)] ∧
  self (queries (run events fresh) 1%positive)
    = MkSimpleQuery [Result 1 "r1"] [R2; R1] (Some R1) false true ∧
  m_qidsState (run events fresh) = ∅ ∧
  m_qids (run events fresh) !! "q1" = None.
Proof. repeat split; vm_compute; reflexivity. Qed.

(** Scenario C: the only resolver has a timeout and never answers; when
    the timeout fires the attempt counts as failed, the budget of one is
    used up and the request is finalized without results. *)
Example scenario_C :
  let events :=
    [call_addResolver R3; call_start;
     call_resolve [1%positive] false false;
     fire_FuncTimeout 0] in
  func_timeouts (run events fresh) = [MkFuncTimeout 100 (bind_timeoutShunt 1%positive)] ∧
  m_qidsState (run events fresh) !! "q1" = Some 1 ∧
  m_qidsState (run (events ++ [fire_FuncTimeout 0]) fresh) = ∅ ∧
  self (queries (run (events ++ [fire_FuncTimeout 0]) fresh) 1%positive)
    = MkSimpleQuery [] [R3] (Some R3) false true.
Proof. repeat split; vm_compute; reflexivity. Qed.

(** Scenario D: a temporary request stays in the ledger when it is
    finalized and leaves it when the reaper's timer fires. *)
Example scenario_D :
  let events :=
    [call_addResolver R1; call_start;
     call_resolve [1%positive] false true;
     fire_FuncTimeout 0;
     call_reportResults "q1" []] in
  m_qidsState (run events fresh) = ∅ ∧
  m_qids (run events fresh) !! "q1" = Some 1%positive ∧
  m_qids (run (events ++ [fire_temporaryQueryTimer]) fresh) !! "q1" = None.
Proof. repeat split; vm_compute; reflexivity. Qed.

(** ** The budget map *)

Lemma four_in_flight_reachable : reachable four_in_flight.
Proof.
  unfold four_in_flight, three_in_flight.
  do 2 apply reachable_run. apply reachable_new.
Qed.

(** The bound of [budget_map_within_cap] on a pipeline with four requests
    in flight and a cap of four. *)
Lemma budget_map_within_cap_witness :
  Z.of_nat (size (m_qidsState four_in_flight)) ≤
  m_maxConcurrentQueries four_in_flight.
Proof.
  exact (proj1 (budget_map_within_cap four_in_flight four_in_flight_reachable)).
Defined.

(** With four requests in flight and a cap of four, [incQIDState] for a
    fifth request, which has no budget entry, gives it one: the map then
    holds five request ids. *)
Lemma incQIDState_adds_entry_beyond_cap :
  reachable four_in_flight ∧
  m_maxConcurrentQueries four_in_flight = 4 ∧
  size (m_qidsState four_in_flight) = 4%nat ∧
  m_qidsState four_in_flight !! "q5" = None ∧
  m_qidsState (exec (incQIDState 5%positive) four_in_flight) !! "q5" = Some 1 ∧
  size (m_qidsState (exec (incQIDState 5%positive) four_in_flight)) = 5%nat.
Proof.
  split; [apply four_in_flight_reachable|].
  repeat split; vm_compute; reflexivity.
Qed.

(** ** Result delivery *)

(** A satisfying answer for the request that waits for R1. *)
Lemma reportResults_early_success_finalizes_witness :
  m_qidsState (exec (reportResults "q1" [Result 1 "r1"]) awaiting_answer) !! "q1"
    = None ∧
  m_qidsTimeout (exec (reportResults "q1" [Result 1 "r1"]) awaiting_answer) !! "q1"
    = None ∧
  func_timeouts (exec (reportResults "q1" [Result 1 "r1"]) awaiting_answer)
    = func_timeouts awaiting_answer ++ [MkFuncTimeout 0 bind_shuntNext] ∧
  output (reportResults "q1" [Result 1 "r1"]) awaiting_answer = [].
Proof.
  destruct (reportResults_early_success_finalizes
              "q1" [Result 1 "r1"] 1%positive awaiting_answer)
    as (_ & _ & Hbudget & Hflag & Hsched & Hout & _);
    [vm_compute; reflexivity|vm_compute; reflexivity|vm_compute; reflexivity
    |discriminate|vm_compute; reflexivity|vm_compute; reflexivity|].
  exact (conj Hbudget (conj Hflag (conj Hsched Hout))).
Defined.

(** Scenario E of the specification: two more deliveries for the id of the
    evicted request change nothing. *)
Lemma reportResults_unknown_id_is_dropped_witness :
  m_qids evicted !! "q1" = None ∧
  exec (reportResults "q1" [Result 1 "r1"])
    (exec (reportResults "q1" [Result 1 "r1"]) evicted) = evicted.
Proof.
  assert (m_qids evicted !! "q1" = None) as Hgone by (vm_compute; reflexivity).
  split; [exact Hgone|].
  exact (proj2 (reportResults_unknown_id_is_dropped "q1" evicted Hgone)
           [[Result 1 "r1"]; [Result 1 "r1"]]).
Defined.

(** An answer for a request that holds a budget entry clears its flag. *)
Lemma reportResults_timeout_flag_witness :
  m_qidsTimeout awaiting_answer !! "q1" = Some true ∧
  m_qidsTimeout (exec (reportResults "q1" []) awaiting_answer) !! "q1" = None.
Proof.
  split; [vm_compute; reflexivity|].
  apply (reportResults_timeout_flag "q1" [] 1%positive awaiting_answer);
    [vm_compute; reflexivity|vm_compute; reflexivity|vm_compute; reflexivity|].
  left. exists 1. vm_compute; reflexivity.
Defined.

Lemma flag_without_budget_reachable : reachable flag_without_budget.
Proof. unfold flag_without_budget. apply reachable_run, reachable_new. Qed.

(** The pipeline runs, the ledger holds the id [x], the flag of [x] is set
    and [x] has no budget entry: a delivery for [x] returns from
    [decQIDState] at once and the flag is still set afterwards. *)
Lemma reportResults_leaves_flag_set :
  reachable flag_without_budget ∧
  m_running flag_without_budget = true ∧
  m_qids flag_without_budget !! "x" = Some 6%positive ∧
  m_qidsState flag_without_budget !! "x" = None ∧
  m_qidsTimeout flag_without_budget !! "x" = Some true ∧
  m_qidsTimeout (exec (reportResults "x" []) flag_without_budget) !! "x"
    = Some true.
Proof.
  split; [apply flag_without_budget_reachable|].
  repeat split; vm_compute; reflexivity.
Qed.

(** ** Submission *)

(** A prioritized batch with a repeated request and one that is pending
    already, on a pipeline that is not started: the new requests are in
    front, in batch order. *)
Example resolve_prioritized_example :
  m_queries_pending
    (exec (resolve [2; 1; 3; 2]%positive true false) queued_not_started)
  = [2; 3; 1]%positive ∧
  m_queries_pending
    (exec (resolve [2; 1; 3; 2]%positive false false) queued_not_started)
  = [1; 2; 3]%positive.
Proof. split; vm_compute; reflexivity. Qed.

(** Resubmitting the request that is pending on a pipeline that is not
    started leaves the queue as it is. *)
Lemma resubmission_keeps_queue_witness :
  m_queries_pending (exec (resolve [1%positive] true false) queued_not_started)
  = m_queries_pending queued_not_started.
Proof.
  destruct (resubmission_keeps_queue 1%positive true false queued_not_started)
    as (Hpending & _ & _).
  destruct Hpending as [_ Hcall]; [vm_compute; left|].
  rewrite Hcall. reflexivity.
Defined.

Lemma three_in_flight_reachable : reachable three_in_flight.
Proof. unfold three_in_flight. apply reachable_run, reachable_new. Qed.

(** Three requests in flight, cap four: the first submission of a fourth
    request dispatches it at once and leaves the queue empty; the second
    submission queues it again, and there it stays because the map is
    full. *)
Lemma resolve_twice_differs_from_once :
  reachable three_in_flight ∧
  m_queries_pending (exec (resolve [4%positive] false false) three_in_flight) = [] ∧
  m_queries_pending
    (exec (resolve [4%positive] false false)
       (exec (resolve [4%positive] false false) three_in_flight)) = [4%positive].
Proof.
  split; [apply three_in_flight_reachable|].
  split; vm_compute; reflexivity.
Qed.

Lemma queued_not_started_reachable : reachable queued_not_started.
Proof. unfold queued_not_started. apply reachable_run, reachable_new. Qed.

(** A temporary submission of a request that was not pending. *)
Lemma resolve_temporary_marks_new_requests_witness :
  2%positive ∈ m_queries_temporary
    (exec (resolve [2%positive] false true) queued_not_started) ∧
  isActive (m_temporaryQueryTimer
    (exec (resolve [2%positive] false true) queued_not_started)) = true ∧
  remaining (m_temporaryQueryTimer
    (exec (resolve [2%positive] false true) queued_not_started)) = CLEANUP_TIMEOUT ∧
  m_qids (exec onTemporaryQueryTimer
    (exec (resolve [2%positive] false true) queued_not_started)) !! "q2" = None.
Proof.
  destruct (resolve_temporary_marks_new_requests [2%positive] false queued_not_started)
    as (_ & _ & Hnew).
  destruct (Hnew 2%positive) as (Hin & Hactive & Hleft & Hreaped);
    [left|vm_compute; intros Hq; inversion Hq as [|? ? ? Hq']; inversion Hq'|].
  exact (conj Hin (conj Hactive (conj Hleft Hreaped))).
Defined.

(** A temporary submission of the request that is pending already: it is
    not put on the temporary list, the timer is not started, and the
    reaper leaves it in the ledger. *)
Lemma resolve_temporary_skips_pending_request :
  reachable queued_not_started ∧
  m_queries_pending queued_not_started = [1%positive] ∧
  m_queries_temporary (exec (resolve [1%positive] false true) queued_not_started)
    = [] ∧
  isActive (m_temporaryQueryTimer
    (exec (resolve [1%positive] false true) queued_not_started)) = false ∧
  m_qids (exec onTemporaryQueryTimer
    (exec (resolve [1%positive] false true) queued_not_started)) !! "q1"
    = Some 1%positive.
Proof.
  split; [apply queued_not_started_reachable|].
  repeat split; vm_compute; reflexivity.
Qed.

(** ** Stopping, timeouts and attempts at work *)

Lemma stopped_pipeline_is_inert_witness :
  exec (reportResults "q1" [Result 1 "r1"]) queued_not_started = queued_not_started ∧
  exec (shunt 1%positive) queued_not_started = queued_not_started.
Proof.
  assert (m_running queued_not_started = false) as Hr by (vm_compute; reflexivity).
  destruct (stopped_pipeline_is_inert queued_not_started Hr)
    as (_ & Hshunt & _ & Hreport & _).
  exact (conj (proj1 (Hreport "q1" [Result 1 "r1"])) (proj1 (Hshunt 1%positive))).
Defined.

Lemma stop_then_start_is_a_dispatch_pass_witness :
  exec start (exec stop awaiting_answer) = exec shuntNext awaiting_answer.
Proof.
  assert (m_running awaiting_answer = true) as Hr by (vm_compute; reflexivity).
  exact (proj1 (proj2 (proj2 (stop_then_start_is_a_dispatch_pass awaiting_answer Hr)))).
Defined.

(** The request was answered with nothing by R3 and waits for R1, which has
    no timeout; the timeout armed for R3 is still pending.  When it fires,
    it finds the flag that the attempt with R1 set: the last budget of the
    request is used up and the request is finalized. *)
Lemma timeoutShunt_goes_by_the_flag_witness :
  func_timeouts second_attempt_waiting
    = [MkFuncTimeout 100 (bind_timeoutShunt 1%positive)] ∧
  sq_currentResolver (self (queries second_attempt_waiting 1%positive)) = Some R1 ∧
  exec (timeoutShunt 1%positive) second_attempt_waiting
    = exec (decQIDState 1%positive) second_attempt_waiting ∧
  m_qidsState (exec (timeoutShunt 1%positive) second_attempt_waiting) !! "q1" = None ∧
  sq_finished
    (self (queries (exec (timeoutShunt 1%positive) second_attempt_waiting) 1%positive))
    = true.
Proof.
  assert (m_running second_attempt_waiting = true) as Hr by (vm_compute; reflexivity).
  destruct (timeoutShunt_goes_by_the_flag 1%positive second_attempt_waiting Hr)
    as (_ & Hset & _).
  destruct Hset as [He _]; [exists true; vm_compute; reflexivity|].
  split; [vm_compute; reflexivity|]. split; [vm_compute; reflexivity|].
  split; [exact He|]. split; vm_compute; reflexivity.
Defined.

(** The timeout of R3 fires while the request waits with a budget of two:
    one attempt is left and the next attempt is scheduled. *)
Lemma timeoutShunt_uses_up_one_attempt_witness :
  m_qidsState (exec (timeoutShunt 1%positive) awaiting_with_timeout)
    = <[qid_of awaiting_with_timeout 1%positive := 2 - 1]>
        (m_qidsState awaiting_with_timeout) ∧
  func_timeouts (exec (timeoutShunt 1%positive) awaiting_with_timeout)
    = func_timeouts awaiting_with_timeout ++ [MkFuncTimeout 0 (bind_shunt 1%positive)].
Proof.
  assert (m_running awaiting_with_timeout = true) as Hr by (vm_compute; reflexivity).
  assert (is_Some (m_qidsTimeout awaiting_with_timeout
                     !! qid_of awaiting_with_timeout 1%positive)) as Hf
    by (exists true; vm_compute; reflexivity).
  assert (m_qidsState awaiting_with_timeout !! qid_of awaiting_with_timeout 1%positive
          = Some 2) as Hv by (vm_compute; reflexivity).
  assert (0 < 2 < 2 ^ 31) as Hrange by lia.
  destruct (timeoutShunt_uses_up_one_attempt 1%positive 2 awaiting_with_timeout
              Hr Hf Hv Hrange) as (_ & _ & Hrest).
  rewrite bool_decide_eq_true_2 in Hrest by lia.
  exact (conj (proj1 Hrest) (proj1 (proj2 Hrest))).
Defined.

Lemma shunt_calls_the_selected_resolver_witness :
  resolver_calls (output (shunt 1%positive) first_attempt_scheduled)
  = [(R1, 1%positive)].
Proof.
  apply (shunt_calls_the_selected_resolver 1%positive R1 first_attempt_scheduled);
    vm_compute; reflexivity.
Defined.

Lemma shunt_leaves_request_waiting_witness :
  m_qidsTimeout (exec (shunt 1%positive) first_attempt_scheduled)
  = <[qid_of first_attempt_scheduled 1%positive := true]>
      (m_qidsTimeout first_attempt_scheduled).
Proof.
  apply (shunt_leaves_request_waiting 1%positive R1 first_attempt_scheduled);
    vm_compute; reflexivity.
Defined.

Lemma shunt_finalizes_when_nothing_is_left_witness :
  output (shunt 1%positive) started_empty = [] ∧
  m_qidsState (exec (shunt 1%positive) started_empty)
  = delete (qid_of started_empty 1%positive) (m_qidsState started_empty).
Proof.
  assert (m_running started_empty = true) as Hr by (vm_compute; reflexivity).
  assert (m_resolvers started_empty = []) as He by (vm_compute; reflexivity).
  destruct (shunt_finalizes_when_nothing_is_left 1%positive started_empty Hr
              (or_intror (or_introl He))) as (Hout & Hbudget & _).
  exact (conj Hout Hbudget).
Defined.


(** ** Invariants at work *)

Lemma budgets_stay_positive_witness : 0 < 1 < 2 ^ 31 ∧ to_int (1 - 1) = 1 - 1.
Proof.
  apply (budgets_stay_positive four_in_flight four_in_flight_reachable "q1" 1).
  vm_compute; reflexivity.
Defined.

Lemma pending_queue_has_no_duplicates_witness :
  NoDup (m_queries_pending queued_not_started).
Proof.
  exact (proj1 (pending_queue_has_no_duplicates queued_not_started
                  queued_not_started_reachable)).
Defined.

Lemma awaiting_answer_reachable : reachable awaiting_answer.
Proof. unfold awaiting_answer. apply reachable_run, reachable_new. Qed.

Lemma ledger_files_queries_under_their_ids_witness :
  qid_of awaiting_answer 1%positive = "q1".
Proof.
  apply (ledger_files_queries_under_their_ids awaiting_answer awaiting_answer_reachable).
  vm_compute; reflexivity.
Defined.

(** ** Dispatch, registration and answers at work *)

(** The dispatch pass takes the second request; two resolvers are
    registered, so its budget is two. *)
Lemma shuntNext_budget_is_registry_size_witness :
  m_queries_pending (exec shuntNext one_left_pending) = [] ∧
  m_qidsState (exec shuntNext one_left_pending) !! "q2" = Some 2.
Proof.
  assert (m_running one_left_pending = true) as Hr by (vm_compute; reflexivity).
  assert (m_queries_pending one_left_pending = [2%positive]) as Hp
    by (vm_compute; reflexivity).
  assert (Z.of_nat (size (m_qidsState one_left_pending))
          < m_maxConcurrentQueries one_left_pending) as Hfree
    by (vm_compute; reflexivity).
  assert (Z.of_nat (length (m_resolvers one_left_pending)) < 2 ^ 31) as Hlen
    by (vm_compute; reflexivity).
  destruct (shuntNext_budget_is_registry_size 2%positive [] one_left_pending
              Hr Hp Hfree Hlen) as (Hrest & _ & _ & _).
  split; [exact Hrest|]. vm_compute; reflexivity.
Defined.

(** Requests 6 and 7 share the id [x]: submitted together to a pipeline
    that is not started, request 6 is filed under [x] and request 7 is
    not. *)
Lemma resolve_files_first_request_of_each_id_witness :
  m_qids (exec (resolve [6; 7]%positive true false) queued_not_started)
    !! qid_of queued_not_started 7%positive
  = Some 6%positive.
Proof.
  assert (dispatches queued_not_started = false) as Hd by (vm_compute; reflexivity).
  etrans;
    [apply (proj1 (resolve_files_first_request_of_each_id [6; 7]%positive true false
                     queued_not_started Hd))|].
  vm_compute; reflexivity.
Defined.

Lemma incQIDState_then_decQIDState_witness :
  m_qidsState (exec (decQIDState 1%positive)
                 (exec (incQIDState 1%positive) awaiting_with_timeout))
  = m_qidsState awaiting_with_timeout.
Proof.
  apply (incQIDState_then_decQIDState 1%positive 2 awaiting_with_timeout);
    [vm_compute; reflexivity|lia].
Defined.

(** R3 answers with nothing while the request has a budget of two. *)
Lemma reportResults_uses_up_one_attempt_witness :
  func_timeouts (exec (reportResults "q1" []) awaiting_with_timeout)
  = func_timeouts awaiting_with_timeout
    ++ [MkFuncTimeout 0 (if bool_decide (1 < 2) then bind_shunt 1%positive
                         else bind_shuntNext)] ∧
  output (reportResults "q1" []) awaiting_with_timeout = [].
Proof.
  destruct (reportResults_uses_up_one_attempt "q1" [] 1%positive 2
              awaiting_with_timeout) as (_ & _ & Hsched & _ & Hout);
    [vm_compute; reflexivity|vm_compute; reflexivity|vm_compute; reflexivity
    |vm_compute; reflexivity|lia|by left|].
  exact (conj Hsched Hout).
Defined.

Lemma reportResults_indexes_results_witness :
  ∃ y, rid y = "r1" ∧
       m_rids (exec (reportResults "q1" [Result 1 "r1"]) awaiting_answer) !! "r1"
       = Some y.
Proof.
  destruct (reportResults_indexes_results "q1" [Result 1 "r1"] 1%positive
              awaiting_answer) as [Hin _];
    [vm_compute; reflexivity|vm_compute; reflexivity|discriminate|].
  destruct (Hin (Result 1 "r1")) as (y & _ & Hrid & Hy); [vm_compute; constructor|].
  exists y. exact (conj Hrid Hy).
Defined.

(** ** Two dispatch passes at once *)

Lemma two_pending_one_slot_reachable : reachable two_pending_one_slot.
Proof.
  unfold two_pending_one_slot. apply reachable_run, four_in_flight_reachable.
Qed.

(** C2, on the code: [shuntNext] checks the cap under [m_mut] (line 216),
    leaves the locked block (line 225) and only then calls [setQIDState]
    (line 227), which inserts the budget entry (line 313).  On a running
    pipeline with a cap of four, three budget entries and two pending
    requests, two dispatch passes of which the second enters the locked
    block before the first has called [setQIDState] both find three
    entries, both take a request, and the budget map ends with five
    request ids.  The same two passes one after the other leave four. *)
Theorem overlapping_dispatch_passes_exceed_cap :
  reachable two_pending_one_slot ∧
  m_running two_pending_one_slot = true ∧
  m_maxConcurrentQueries two_pending_one_slot = 4 ∧
  size (m_qidsState two_pending_one_slot) = 3%nat ∧
  m_queries_pending two_pending_one_slot = [5; 8]%positive ∧
  value shuntNext_to_unlock two_pending_one_slot = Some (5%positive, 1) ∧
  value shuntNext_to_unlock (exec shuntNext_to_unlock two_pending_one_slot)
    = Some (8%positive, 1) ∧
  size (m_qidsState (two_overlapping_passes two_pending_one_slot)) = 5%nat ∧
  size (m_qidsState (exec shuntNext (exec shuntNext two_pending_one_slot)))
    = 4%nat.
Proof.
  split; [apply two_pending_one_slot_reachable|].
  repeat split; vm_compute; reflexivity.
Qed.

(** ** Requests with ids of their own *)

#[global] Instance SimpleQuery_laws : QueryLaws SimpleQuery.
Proof. split; [done|by intros res []|by intros r []]. Qed.




(** ** A prioritized batch on a running pipeline *)

Lemma one_left_pending_reachable : reachable one_left_pending.
Proof. unfold one_left_pending. apply reachable_run, reachable_new. Qed.

(** The pipeline runs with one request in flight, a cap of four and request
    2 pending.  A prioritized submission of requests 3 and 4 puts them in
    front of request 2 in its loop; the dispatch pass that ends the
    submission takes request 3, so that once the call is through the queue
    holds request 4 before request 2, and request 3 is not in it. *)
Lemma resolve_prioritized_dispatches_first_request :
  reachable one_left_pending ∧
  m_running one_left_pending = true ∧
  m_queries_pending one_left_pending = [2]%positive ∧
  m_queries_pending (exec (resolve_loop true false [3; 4]%positive 0) one_left_pending)
    = [3; 4; 2]%positive ∧
  m_queries_pending (exec (resolve [3; 4]%positive true false) one_left_pending)
    = [4; 2]%positive ∧
  3%positive ∉ m_queries_pending
                 (exec (resolve [3; 4]%positive true false) one_left_pending).
Proof.
  split; [apply one_left_pending_reachable|].
  repeat split; try (vm_compute; reflexivity).
  assert (m_queries_pending
            (exec (resolve [3; 4]%positive true false) one_left_pending)
          = [4; 2]%positive) as -> by (vm_compute; reflexivity).
  set_solver.
Qed.
